(** * Plumbing of a content-addressable repository: pygit.py and libwyag.py

    A shallow embedding of the object store, the tree and KVLM codecs, ref
    resolution, the index reader and the status computation, followed by the
    properties checked against them.

    Conventions of the embedding:
    - Python [bytes] are [list byte]; Python [str] is [string], restricted to
      code points below 256 (the texts handled here are ASCII);
    - positions are [Z], as in Python, so that the [-1] returned by
      [bytes.find] and negative indices behave as they do in the source;
    - a raised exception is a value of [exn]; a function that may raise
      returns [res];
    - loops and recursions that the source does not bound take a [fuel]
      argument and return [None] when it runs out. *)

From Stdlib Require Import ZArith Lia List DecimalString DecimalNat OrderedTypeEx.
From Stdlib.Strings Require Import String Ascii Byte.
From stdpp Require Import base option list strings gmap sorting.

Open Scope Z_scope.

(** ** Bytes, text and exceptions *)

Abbreviation bytes := (list byte).

#[global] Instance byte_eq_dec : EqDecision byte := Byte.byte_eq_dec.

Definition SP : byte := x20.
Definition NL : byte := x0a.
Definition NUL : byte := x00.

(** [s.encode()] on ASCII text. *)
Definition encode (s : string) : bytes := list_byte_of_string s.

(** The exceptions the modelled functions raise, with their message where the
    source builds one. *)
Inductive exn :=
| AssertionError (msg : string)
| ValueError (msg : string)
| Exception (msg : string)
| KeyError
| IndexError
| TypeError
| OverflowError
| UnicodeDecodeError
| FileNotFoundError
| IsADirectoryError
| RecursionError
| StructError
| ZlibError.

Inductive res (A : Type) :=
| Ok (a : A)
| Raise (e : exn).
Arguments Ok {A} a.
Arguments Raise {A} e.

Definition bind {A B} (r : res A) (k : A -> res B) : res B :=
  match r with
  | Ok a => k a
  | Raise e => Raise e
  end.

Notation "'let*' x ':=' r 'in' k" := (bind r (fun x => k))
  (at level 10, x pattern, r at level 100, k at level 200).

Definition assert (b : bool) (msg : string) : res unit :=
  if b then Ok tt else Raise (AssertionError msg).

(** [b.decode("ascii")]: every byte must be below 128. *)
Definition is_ascii (b : byte) : bool := (Byte.to_N b <? 128)%N.

Definition decode_ascii (b : bytes) : res string :=
  if forallb is_ascii b then Ok (string_of_list_byte b) else Raise UnicodeDecodeError.

(** ** Python sequence primitives *)

(** Index of the first occurrence of [b] in [l]. *)
Fixpoint index_of (b : byte) (l : bytes) : option nat :=
  match l with
  | [] => None
  | c :: l' => if decide (c = b) then Some 0%nat else S <$> index_of b l'
  end.

(** A slice bound, as Python adjusts it: a negative bound counts from the
    end, and the result is clamped to [0, len]. *)
Definition clamp (n : nat) (i : Z) : nat :=
  let len := Z.of_nat n in
  let j := if i <? 0 then i + len else i in
  Z.to_nat (Z.max 0 (Z.min len j)).

(** [raw.find(b, start)] for a one-byte needle. *)
Definition find (raw : bytes) (b : byte) (start : Z) : Z :=
  let s := clamp (length raw) start in
  if Z.of_nat (length raw) <? start then -1
  else match index_of b (drop s raw) with
       | Some i => Z.of_nat (s + i)
       | None => -1
       end.

(** [raw[a:b]]. *)
Definition slice {A} (raw : list A) (a b : Z) : list A :=
  let i := clamp (length raw) a in
  let j := clamp (length raw) b in
  take (j - i) (drop i raw).

(** [raw[a:]]. *)
Definition slice_from {A} (raw : list A) (a : Z) : list A :=
  drop (clamp (length raw) a) raw.

(** [raw[:b]]. *)
Definition slice_to {A} (raw : list A) (b : Z) : list A :=
  take (clamp (length raw) b) raw.

(** [raw[i]]. *)
Definition item (raw : bytes) (i : Z) : res byte :=
  let len := Z.of_nat (length raw) in
  let j := if i <? 0 then i + len else i in
  if (j <? 0) || (len <=? j) then Raise IndexError
  else match raw !! Z.to_nat j with
       | Some c => Ok c
       | None => Raise IndexError
       end.

(** [str(n)] for a natural number. *)
Definition str_of_nat (n : nat) : string :=
  NilEmpty.string_of_uint (Nat.to_uint n).

(** ** Integers and hexadecimal text *)

(** [int.from_bytes(b, "big")]. *)
Definition int_from_bytes (b : bytes) : Z :=
  fold_left (fun acc c => acc * 256 + Z.of_N (Byte.to_N c)) b 0.

(** [n.to_bytes(len, byteorder="big")]: raises [OverflowError] when [n] is
    negative or does not fit. *)
Fixpoint to_bytes_aux (len : nat) (n : Z) (acc : bytes) : bytes :=
  match len with
  | O => acc
  | S len' =>
      match Byte.of_N (Z.to_N (n mod 256)) with
      | Some c => to_bytes_aux len' (n / 256) (c :: acc)
      | None => acc
      end
  end.

Definition int_to_bytes (n : Z) (len : nat) : res bytes :=
  if (n <? 0) || (256 ^ Z.of_nat len <=? n) then Raise OverflowError
  else Ok (to_bytes_aux len n []).

Definition hex_digit (d : Z) : ascii :=
  if d <? 10 then ascii_of_N (Z.to_N (48 + d)) else ascii_of_N (Z.to_N (87 + d)).

(** The digits of a positive number, most significant first; [fuel] bounds
    the number of digits. *)
Fixpoint hex_digits (fuel : nat) (n : Z) (acc : string) : string :=
  match fuel with
  | O => acc
  | S fuel' =>
      if n <=? 0 then acc
      else hex_digits fuel' (n / 16) (String (hex_digit (n mod 16)) acc)
  end.

(** [hex(n)[2:]] for [n >= 0]: lowercase, no leading zero, ["0"] for zero. *)
Definition hex_of_int (n : Z) : string :=
  if n <=? 0 then "0"%string
  else hex_digits (S (Z.to_nat (Z.log2 n))) n "".

Definition hex_value (c : ascii) : option Z :=
  let n := Z.of_N (N_of_ascii c) in
  if (48 <=? n) && (n <=? 57) then Some (n - 48)
  else if (97 <=? n) && (n <=? 102) then Some (n - 87)
  else if (65 <=? n) && (n <=? 70) then Some (n - 55)
  else None.

Fixpoint int_of_hex_aux (s : string) (acc : Z) : option Z :=
  match s with
  | EmptyString => Some acc
  | String c s' =>
      match hex_value c with
      | Some d => int_of_hex_aux s' (acc * 16 + d)
      | None => None
      end
  end.

(** [int(s, 16)] on a non-empty string of hexadecimal digits; any other text
    raises [ValueError].  (The signs, the [0x] prefix, the underscores and the
    surrounding blanks that [int] also accepts do not occur in digests and are
    left out.) *)
Definition int_of_hex (s : string) : res Z :=
  match s with
  | EmptyString => Raise (ValueError "invalid literal for int() with base 16")
  | _ => match int_of_hex_aux s 0 with
         | Some n => Ok n
         | None => Raise (ValueError "invalid literal for int() with base 16")
         end
  end.

(** [b.hex()]: two lowercase digits per byte. *)
Fixpoint bytes_hex (b : bytes) : string :=
  match b with
  | [] => ""
  | c :: b' =>
      let n := Z.of_N (Byte.to_N c) in
      String (hex_digit (n / 16)) (String (hex_digit (n mod 16)) (bytes_hex b'))
  end.

(** [b.replace(b"\n", b"\n ")] and its like: every occurrence of the byte
    [old] becomes [new]. *)
Fixpoint replace_byte (old : byte) (new : bytes) (b : bytes) : bytes :=
  match b with
  | [] => []
  | c :: b' =>
      if decide (c = old) then new ++ replace_byte old new b'
      else c :: replace_byte old new b'
  end.

(** [b.replace(b"\n ", b"\n")] and its like: the occurrences of the two-byte
    needle [o1 o2], taken from the left and not overlapping, become [new]. *)
Fixpoint replace_pair (o1 o2 : byte) (new : bytes) (b : bytes) : bytes :=
  match b with
  | [] => []
  | c :: b' =>
      match b' with
      | d :: b'' =>
          if decide (c = o1 /\ d = o2) then new ++ replace_pair o1 o2 new b''
          else c :: replace_pair o1 o2 new b'
      | [] => [c]
      end
  end.

(** ** SHA-1 (hashlib.sha1), on 32-bit words held in [Z] *)

Module SHA1.

Definition w32 (x : Z) : Z := x mod 2 ^ 32.

Definition rotl (n x : Z) : Z :=
  w32 (Z.lor (Z.shiftl x n) (Z.shiftr x (32 - n))).

Definition byte_of_Z (z : Z) : byte :=
  match Byte.of_N (Z.to_N (z mod 256)) with
  | Some b => b
  | None => x00
  end.

Definition word_bytes (w : Z) : bytes :=
  [byte_of_Z (w / 2 ^ 24); byte_of_Z (w / 2 ^ 16); byte_of_Z (w / 2 ^ 8); byte_of_Z w].

(** The message, a [0x80] byte, zeros up to 56 mod 64, and the bit length
    on 8 bytes. *)
Definition pad (msg : bytes) : bytes :=
  let len := length msg in
  let zeros := ((119 - len mod 64) mod 64)%nat in
  let bits := Z.of_nat len * 8 in
  msg ++ [x80] ++ replicate zeros x00
      ++ word_bytes (bits / 2 ^ 32) ++ word_bytes bits.

Fixpoint words (n : nat) (b : bytes) : list Z :=
  match n with
  | O => []
  | S n' => int_from_bytes (take 4 b) :: words n' (drop 4 b)
  end.

(** The message schedule: [n] more words after the ones of [w]. *)
Fixpoint expand (n : nat) (w : list Z) : list Z :=
  match n with
  | O => w
  | S n' =>
      let t := length w in
      let g i := nth (t - i) w 0 in
      expand n' (w ++ [rotl 1 (Z.lxor (Z.lxor (g 3%nat) (g 8%nat))
                                      (Z.lxor (g 14%nat) (g 16%nat)))])
  end.

Definition state : Type := Z * Z * Z * Z * Z.

Definition round (t : nat) (wt : Z) (s : state) : state :=
  let '(a, b, c, d, e) := s in
  let '(f, k) :=
    if (t <? 20)%nat then
      (Z.lor (Z.land b c) (Z.land (Z.lxor b (2 ^ 32 - 1)) d), 1518500249)
    else if (t <? 40)%nat then (Z.lxor (Z.lxor b c) d, 1859775393)
    else if (t <? 60)%nat then
      (Z.lor (Z.lor (Z.land b c) (Z.land b d)) (Z.land c d), 2400959708)
    else (Z.lxor (Z.lxor b c) d, 3395469782) in
  (w32 (rotl 5 a + f + e + k + wt), a, rotl 30 b, c, d).

Fixpoint rounds (t : nat) (w : list Z) (s : state) : state :=
  match w with
  | [] => s
  | wt :: w' => rounds (S t) w' (round t wt s)
  end.

Definition block (h : state) (b : bytes) : state :=
  let '(h0, h1, h2, h3, h4) := h in
  let '(a, b', c, d, e) := rounds 0 (expand 64 (words 16 b)) h in
  (w32 (h0 + a), w32 (h1 + b'), w32 (h2 + c), w32 (h3 + d), w32 (h4 + e)).

Fixpoint blocks (n : nat) (h : state) (b : bytes) : state :=
  match n with
  | O => h
  | S n' => blocks n' (block h (take 64 b)) (drop 64 b)
  end.

(** [hashlib.sha1(msg).digest()]. *)
Definition digest (msg : bytes) : bytes :=
  let p := pad msg in
  let '(h0, h1, h2, h3, h4) :=
    blocks (length p / 64)
      (1732584193, 4023233417, 2562383102, 271733878, 3285377520) p in
  word_bytes h0 ++ word_bytes h1 ++ word_bytes h2 ++ word_bytes h3 ++ word_bytes h4.

(** [hashlib.sha1(msg).hexdigest()]. *)
Definition hexdigest (msg : bytes) : string := bytes_hex (digest msg).

End SHA1.

(** ** Decimal text *)

(** [str(z)] for an integer. *)
Definition str_of_Z (z : Z) : string :=
  if z <? 0 then String "-" (str_of_nat (Z.to_nat (- z)))
  else str_of_nat (Z.to_nat z).

(** White space as [str.strip], [str.split] and [int] see it, among the
    characters below 128. *)
Definition is_space (c : ascii) : bool :=
  let n := Z.of_N (N_of_ascii c) in
  ((9 <=? n) && (n <=? 13)) || ((28 <=? n) && (n <=? 32)).

Definition is_digit (c : ascii) : bool :=
  let n := Z.of_N (N_of_ascii c) in (48 <=? n) && (n <=? 57).

Fixpoint lstrip (s : string) : string :=
  match s with
  | EmptyString => EmptyString
  | String c s' => if is_space c then lstrip s' else s
  end.

Fixpoint rstrip (s : string) : string :=
  match s with
  | EmptyString => EmptyString
  | String c s' =>
      match rstrip s' with
      | EmptyString => if is_space c then EmptyString else String c EmptyString
      | r => String c r
      end
  end.

(** The digits of a decimal literal, where single underscores may separate
    digits; [after_digit] tells whether the previous character was one. *)
Fixpoint digits_value (s : string) (after_digit : bool) (acc : Z) : option Z :=
  match s with
  | EmptyString => if after_digit then Some acc else None
  | String c s' =>
      if is_digit c then
        digits_value s' true (acc * 10 + (Z.of_N (N_of_ascii c) - 48))
      else if (Ascii.eqb c "_" && after_digit)%bool then
        match s' with
        | EmptyString => None
        | _ => digits_value s' false acc
        end
      else None
  end.

(** [int(s)]: blanks around, an optional sign, then the digits. *)
Definition py_int (s : string) : res Z :=
  let bad := Raise (ValueError "invalid literal for int() with base 10") in
  match rstrip (lstrip s) with
  | EmptyString => bad
  | String c r =>
      if Ascii.eqb c "-" then
        match digits_value r false 0 with Some n => Ok (- n) | None => bad end
      else if Ascii.eqb c "+" then
        match digits_value r false 0 with Some n => Ok n | None => bad end
      else
        match digits_value (String c r) false 0 with Some n => Ok n | None => bad end
  end.

(** [s.split()]: the maximal runs of characters that are not white space.
    [cur] is the run being read, reversed. *)
Fixpoint split_ws_aux (s : string) (cur : list ascii) : list string :=
  let flush := match cur with
               | [] => []
               | _ => [string_of_list_ascii (rev cur)]
               end in
  match s with
  | EmptyString => flush
  | String c s' =>
      if is_space c then flush ++ split_ws_aux s' []
      else split_ws_aux s' (c :: cur)
  end.

Definition split_ws (s : string) : list string := split_ws_aux s [].

(** [s[:n]] and [s[n:]] on text, for [n >= 0]. *)
Definition str_take (n : nat) (s : string) : string := substring 0 n s.
Definition str_drop (n : nat) (s : string) : string :=
  substring n (String.length s - n) s.

(** [s[:-1]]. *)
Definition str_drop_last (s : string) : string :=
  substring 0 (String.length s - 1) s.

(** ** zlib, as far as the repository relies on it *)

(** [zlib.compress] and [zlib.decompress] are taken as an interface:
    decompressing what was compressed gives the data back, and
    [decompress] is [None] on data it rejects ([zlib.error]). *)
Class Zlib := {
  compress : bytes -> bytes;
  decompress : bytes -> option bytes;
  decompress_compress : forall b, decompress (compress b) = Some b
}.

(** The object directory [.git/objects]: a two-character directory name
    maps to its files, a file name to its content. *)
Abbreviation objdir := (gmap string (gmap string bytes)).

(** ** libwyag.py *)

Module Wyag.

(** *** The tree codec *)

(** [GitTreeLeaf]: the mode and the path are bytes, the digest is kept as
    hexadecimal text. *)
Record GitTreeLeaf := Leaf {
  mode : bytes;
  path : bytes;
  sha : string
}.

Definition tree_parse_one (raw : bytes) (start : Z) : res (Z * GitTreeLeaf) :=
  let x := find raw SP start in
  let* _ := assert ((x - start =? 5) || (x - start =? 6)) "" in
  let mode := slice raw start x in
  let y := find raw NUL x in
  let path := slice raw (x + 1) y in
  let sha := hex_of_int (int_from_bytes (slice raw (y + 1) (y + 21))) in
  Ok (y + 21, Leaf mode path sha).

(** The [while pos < max] loop of [tree_parse]; [ret] is the list built so
    far, in order. *)
Fixpoint tree_parse_loop (fuel : nat) (raw : bytes) (pos : Z)
    (ret : list GitTreeLeaf) : option (res (list GitTreeLeaf)) :=
  if Z.of_nat (length raw) <=? pos then Some (Ok ret)
  else match fuel with
       | O => None
       | S fuel' =>
           match tree_parse_one raw pos with
           | Ok (pos', data) => tree_parse_loop fuel' raw pos' (ret ++ [data])
           | Raise e => Some (Raise e)
           end
       end.

(** [tree_parse]: the loop is given one round per byte of [raw]; a record
    that parses takes at least 27 bytes, so [None] stands for a loop that
    does not advance. *)
Definition tree_parse (raw : bytes) : option (res (list GitTreeLeaf)) :=
  tree_parse_loop (length raw) raw 0 [].

(** [tree_serialize], on the list [obj.items]. *)
Fixpoint tree_serialize_from (ret : bytes) (items : list GitTreeLeaf) : res bytes :=
  match items with
  | [] => Ok ret
  | i :: items' =>
      let* n := int_of_hex (sha i) in
      let* d := int_to_bytes n 20 in
      tree_serialize_from (ret ++ mode i ++ [SP] ++ path i ++ [NUL] ++ d) items'
  end.

Definition tree_serialize (items : list GitTreeLeaf) : res bytes :=
  tree_serialize_from [] items.

(** *** The KVLM codec *)

(** A value of the ordered dictionary: bytes, or a list of bytes once a key
    has been seen again. *)
Inductive value :=
| VBytes (b : bytes)
| VList (l : list bytes).

(** [collections.OrderedDict] with bytes keys: the items in insertion
    order, each key once. *)
Abbreviation dict := (list (bytes * value)).

Fixpoint dict_get (d : dict) (k : bytes) : option value :=
  match d with
  | [] => None
  | (k', v) :: d' => if decide (k' = k) then Some v else dict_get d' k
  end.

(** [d[k] = v]: an existing key keeps its place, a new one goes last. *)
Fixpoint dict_set (d : dict) (k : bytes) (v : value) : dict :=
  match d with
  | [] => [(k, v)]
  | (k', v') :: d' =>
      if decide (k' = k) then (k, v) :: d' else (k', v') :: dict_set d' k v
  end.

(** The [while True] loop of [kvlm_parse] that looks for the newline ending
    the value: the first one, after [end_], that no space follows. *)
Fixpoint value_end (fuel : nat) (raw : bytes) (end_ : Z) : option (res Z) :=
  match fuel with
  | O => None
  | S fuel' =>
      let e := find raw NL (end_ + 1) in
      match item raw (e + 1) with
      | Raise ex => Some (Raise ex)
      | Ok c => if decide (c = SP) then value_end fuel' raw e else Some (Ok e)
      end
  end.

(** [kvlm_parse]. [depth] is the recursion depth the interpreter still
    allows; the inner loop is given one round per position of [raw], which
    is as many different values as [end] can take. *)
Fixpoint kvlm_parse (depth : nat) (raw : bytes) (start : Z) (dct : dict)
    : option (res dict) :=
  match depth with
  | O => Some (Raise RecursionError)
  | S depth' =>
      let spc := find raw SP start in
      let nl := find raw NL start in
      if (spc <? 0) || (nl <? spc) then
        Some (let* _ := assert (nl =? start) "" in
              Ok (dict_set dct [] (VBytes (slice_from raw (start + 1)))))
      else
        let key := slice raw start spc in
        match value_end (length raw + 2) raw start with
        | None => None
        | Some (Raise e) => Some (Raise e)
        | Some (Ok e) =>
            let value := replace_pair NL SP [NL] (slice raw (spc + 1) e) in
            let dct' :=
              match dict_get dct key with
              | Some (VList l) => dict_set dct key (VList (l ++ [value]))
              | Some (VBytes b) => dict_set dct key (VList [b; value])
              | None => dict_set dct key (VBytes value)
              end in
            kvlm_parse depth' raw (e + 1) dct'
        end
  end.

(** The lines one item contributes to the output of [kvlm_serialize]. *)
Definition kvlm_item (ret : bytes) (kv : bytes * value) : bytes :=
  let '(k, val) := kv in
  if decide (k = []) then ret
  else
    let val := match val with VList l => l | VBytes b => [b] end in
    fold_left (fun ret v => ret ++ k ++ [SP] ++ replace_byte NL [NL; SP] v ++ [NL])
              val ret.

(** [kvlm_serialize]: [kvlm[b""]] raises [KeyError] when the message is
    missing, and adding a list to bytes raises [TypeError]. *)
Definition kvlm_serialize (kvlm : dict) : res bytes :=
  let ret := fold_left kvlm_item kvlm [] in
  match dict_get kvlm [] with
  | None => Raise KeyError
  | Some (VBytes m) => Ok (ret ++ [NL] ++ m)
  | Some (VList _) => Raise TypeError
  end.

(** *** Objects *)

Inductive GitObject :=
| GitBlob (blobdata : bytes)
| GitTree (items : list GitTreeLeaf)
| GitCommit (kvlm : dict)
| GitTag (kvlm : dict).

Definition fmt (o : GitObject) : bytes :=
  match o with
  | GitBlob _ => encode "blob"
  | GitTree _ => encode "tree"
  | GitCommit _ => encode "commit"
  | GitTag _ => encode "tag"
  end.

Definition serialize (o : GitObject) : res bytes :=
  match o with
  | GitBlob d => Ok d
  | GitTree items => tree_serialize items
  | GitCommit k | GitTag k => kvlm_serialize k
  end.

Definition lift {A B} (f : A -> B) (r : option (res A)) : option (res B) :=
  match r with
  | Some (Ok a) => Some (Ok (f a))
  | Some (Raise e) => Some (Raise e)
  | None => None
  end.

Section Objects.
Context {zlib : Zlib}.

(** [object_read]. The file is [objects/sha[0:2]/sha[2:]]: [repo_file]
    gives [None] when the directory is missing, and [open(None)] raises
    [TypeError]; when a component is empty the path is that of a directory,
    which [open] refuses. *)
Definition object_read (depth : nat) (objs : objdir) (sha : string)
    : option (res GitObject) :=
  if decide (sha = ""%string) then Some (Raise IsADirectoryError) else
  match objs !! str_take 2 sha with
  | None => Some (Raise TypeError)
  | Some dir =>
      if decide (str_drop 2 sha = ""%string) then Some (Raise IsADirectoryError)
      else
      match dir !! str_drop 2 sha with
      | None => Some (Raise FileNotFoundError)
      | Some content =>
          match decompress content with
          | None => Some (Raise ZlibError)
          | Some raw =>
              let x := find raw SP 0 in
              let fmt := slice raw 0 x in
              let y := find raw NUL x in
              match (let* text := decode_ascii (slice raw x y) in py_int text) with
              | Raise e => Some (Raise e)
              | Ok size =>
                  if negb (size =? Z.of_nat (length raw) - y - 1) then
                    Some (Raise (Exception
                      ("Malformed object " ++ sha ++ ": bad length")))
                  else
                    let data := slice_from raw (y + 1) in
                    if decide (fmt = encode "commit") then
                      lift GitCommit (kvlm_parse depth data 0 [])
                    else if decide (fmt = encode "tree") then
                      lift GitTree (tree_parse data)
                    else if decide (fmt = encode "tag") then
                      lift GitTag (kvlm_parse depth data 0 [])
                    else if decide (fmt = encode "blob") then
                      Some (Ok (GitBlob data))
                    else
                      Some (let* t := decode_ascii fmt in
                            Raise (Exception
                              ("Unknown type " ++ t ++ " for object " ++ sha)))
              end
          end
      end
  end.

(** The repository as [object_write] sees it: the object directory, and
    the files written so far, latest first. *)
Record repo := Repo {
  objects : objdir;
  written : list (string * string)
}.

(** [open(path, "wb")] followed by [f.write(data)], in a directory that
    [repo_file(..., mkdir=True)] creates when it is missing. *)
Definition write_object_file (r : repo) (d n : string) (data : bytes) : repo :=
  let dir := default ∅ (objects r !! d) in
  Repo (<[d := <[n := data]> dir]> (objects r)) ((d, n) :: written r).

(** [object_write]: returns the digest and the repository after the call. *)
Definition object_write (obj : GitObject) (actually_write : bool) (r : repo)
    : res (string * repo) :=
  let* data := serialize obj in
  let result := fmt obj ++ [SP] ++ encode (str_of_nat (length data)) ++ [NUL] ++ data in
  let sha := SHA1.hexdigest result in
  if actually_write then
    Ok (sha, write_object_file r (str_take 2 sha) (str_drop 2 sha) (compress result))
  else Ok (sha, r).

End Objects.

(** *** Refs *)

(** [ref_resolve]. [files] maps a path under the git directory to the text
    of the file; [depth] is the recursion depth the interpreter still
    allows. *)
Fixpoint ref_resolve (depth : nat) (files : gmap string string) (ref : string)
    : res string :=
  match depth with
  | O => Raise RecursionError
  | S depth' =>
      match files !! ref with
      | None => Raise FileNotFoundError
      | Some text =>
          let data := str_drop_last text in
          if String.prefix "ref: " data then ref_resolve depth' files (str_drop 5 data)
          else Ok data
      end
  end.

End Wyag.

(** ** pygit.py *)

(** [b.decode()]: the bytes must be well-formed UTF-8.  The text is kept as
    its UTF-8 encoding, on which equality and the order of [str] are those
    of the decoded text. *)
Fixpoint utf8_valid (more : nat) (lo hi : Z) (b : bytes) : bool :=
  match b with
  | [] => match more with O => true | _ => false end
  | c :: b' =>
      let n := Z.of_N (Byte.to_N c) in
      match more with
      | S more' => (lo <=? n) && (n <=? hi) && utf8_valid more' 128 191 b'
      | O =>
          if n <? 128 then utf8_valid 0 128 191 b'
          else if (194 <=? n) && (n <=? 223) then utf8_valid 1 128 191 b'
          else if n =? 224 then utf8_valid 2 160 191 b'
          else if n =? 237 then utf8_valid 2 128 159 b'
          else if (225 <=? n) && (n <=? 239) then utf8_valid 2 128 191 b'
          else if n =? 240 then utf8_valid 3 144 191 b'
          else if (241 <=? n) && (n <=? 243) then utf8_valid 3 128 191 b'
          else if n =? 244 then utf8_valid 3 128 143 b'
          else false
      end
  end.

Definition decode (b : bytes) : res string :=
  if utf8_valid 0 128 191 b then Ok (string_of_list_byte b)
  else Raise UnicodeDecodeError.

(** [s.replace(old, new)] for one-character [old] and [new]. *)
Fixpoint str_replace (old new : ascii) (s : string) : string :=
  match s with
  | EmptyString => EmptyString
  | String c s' =>
      String (if Ascii.eqb c old then new else c) (str_replace old new s')
  end.

(** [struct.unpack] of one big-endian unsigned field of [f] bytes at
    offset [o]. *)
Definition field (b : bytes) (o f : nat) : Z :=
  int_from_bytes (take f (drop o b)).

(** The order of [str]: by code point, a prefix first. *)
Definition str_le (a b : string) : Prop := String.leb a b = true.

#[global] Instance str_le_dec : RelDecision str_le.
Proof. intros a b. unfold str_le. apply _. Defined.

Module Pygit.

Record IndexEntry := Entry {
  ctime_s : Z; ctime_n : Z; mtime_s : Z; mtime_n : Z;
  dev : Z; ino : Z; mode : Z; uid : Z; gid : Z; size : Z;
  sha1 : bytes;
  flags : Z;
  path : string
}.

(** The object directory, and the files written so far, latest first. *)
Record repo := Repo {
  objects : objdir;
  written : list (string * string)
}.

Definition exists_object (r : repo) (d n : string) : bool :=
  match objects r !! d with
  | Some dir => bool_decide (is_Some (dir !! n))
  | None => false
  end.

(** [os.makedirs(dirname, exist_ok=True)] and [write_file(path, data)]. *)
Definition write_file (r : repo) (d n : string) (data : bytes) : repo :=
  let dir := default ∅ (objects r !! d) in
  Repo (<[d := <[n := data]> dir]> (objects r)) ((d, n) :: written r).

Section Store.
Context {zlib : Zlib}.

(** [hash_object]: returns the digest and the repository after the call. *)
Definition hash_object (data : bytes) (obj_type : string) (write : bool)
    (r : repo) : string * repo :=
  let header := encode (obj_type ++ " " ++ str_of_nat (length data)) in
  let full_data := header ++ [x00] ++ data in
  let sha1 := SHA1.hexdigest full_data in
  if write then
    let d := str_take 2 sha1 in
    let n := str_drop 2 sha1 in
    if exists_object r d n then (sha1, r)
    else (sha1, write_file r d n (compress full_data))
  else (sha1, r).

(** [find_object]: the directory and the name of the file found.
    [os.listdir] raises [FileNotFoundError] on a missing directory. *)
Definition find_object (objs : objdir) (sha1_prefix : string)
    : res (string * string) :=
  if (String.length sha1_prefix <? 2)%nat then
    Raise (ValueError "hash prefix must be 2 or more characters")
  else
    let obj_dir := str_take 2 sha1_prefix in
    let rest := str_drop 2 sha1_prefix in
    match objs !! obj_dir with
    | None => Raise FileNotFoundError
    | Some dir =>
        let objects := filter (fun name => String.prefix rest name = true)
                              (map_to_list dir).*1 in
        match objects with
        | [] => Raise (ValueError ("object " ++ sha1_prefix ++ " not found"))
        | [name] => Ok (obj_dir, name)
        | _ => Raise (ValueError
                 ("multiple objects (" ++ str_of_nat (length objects)
                  ++ ") with prefix " ++ sha1_prefix))
        end
    end.

(** [read_object]. *)
Definition read_object (objs : objdir) (sha1_prefix : string)
    : res (string * bytes) :=
  let* (d, n) := find_object objs sha1_prefix in
  match objs !! d ≫= (.!! n) with
  | None => Raise FileNotFoundError
  | Some content =>
      match decompress content with
      | None => Raise ZlibError
      | Some full_data =>
          match index_of x00 full_data with
          | None => Raise (ValueError "subsection not found")
          | Some nul_index =>
              let header := take nul_index full_data in
              let* text := decode header in
              match split_ws text with
              | [obj_type; size_str] =>
                  let* size := py_int size_str in
                  let data := drop (nul_index + 1) full_data in
                  if negb (size =? Z.of_nat (length data)) then
                    Raise (ValueError
                      ("expected size " ++ str_of_Z size ++ ", but got "
                       ++ str_of_nat (length data) ++ " bytes"))
                  else Ok (obj_type, data)
              | _ => Raise (ValueError "not enough or too many values to unpack")
              end
          end
      end
  end.

End Store.

(** *** The index *)

(** One round of the [while i + 62 < len(entry_data)] loop of [read_index]:
    the entry at [i] and the offset of the next one. *)
Definition read_entry (entry_data : bytes) (i : nat) : res (IndexEntry * nat) :=
  let fields_end := (i + 62)%nat in
  let f := take 62 (drop i entry_data) in
  match index_of x00 (drop fields_end entry_data) with
  | None => Raise (ValueError "subsection not found")
  | Some k =>
      let path := take k (drop fields_end entry_data) in
      let* p := decode path in
      let entry :=
        Entry (field f 0 4) (field f 4 4) (field f 8 4) (field f 12 4)
              (field f 16 4) (field f 20 4) (field f 24 4) (field f 28 4)
              (field f 32 4) (field f 36 4) (take 20 (drop 40 f))
              (field f 60 2) p in
      let entry_len := ((62 + length path + 8) / 8 * 8)%nat in
      Ok (entry, (i + entry_len)%nat)
  end.

Fixpoint read_entries (fuel : nat) (entry_data : bytes) (i : nat)
    (entries : list IndexEntry) : option (res (list IndexEntry)) :=
  if negb (i + 62 <? length entry_data)%nat then Some (Ok entries)
  else match fuel with
       | O => None
       | S fuel' =>
           match read_entry entry_data i with
           | Ok (entry, i') => read_entries fuel' entry_data i' (entries ++ [entry])
           | Raise e => Some (Raise e)
           end
       end.

(** [read_index], on the content of [.git/index], [None] when the file
    does not exist.  Every round of the loop moves [i] forward by 64 bytes
    or more, so one round per byte is more than enough: the last case of
    the definition never occurs (lemma [read_entries_total] below). *)
Definition read_index (file : option bytes) : res (list IndexEntry) :=
  match file with
  | None => Ok []
  | Some data =>
      let n := length data in
      let digest := SHA1.digest (take (n - 20) data) in
      let* _ := assert (bool_decide (digest = drop (n - 20) data))
                       "invalid index checksum" in
      let* _ := if decide (length (take 12 data) = 12%nat) then Ok tt
                else Raise StructError in
      let signature := take 4 data in
      let version := field data 4 4 in
      let num_entries := field data 8 4 in
      let* _ := assert (bool_decide (signature = encode "DIRC"))
                       "invalid index signature" in
      let* _ := assert (version =? 2) "unkown index version" in
      let entry_data := take (n - 20 - 12) (drop 12 data) in
      match read_entries (length entry_data) entry_data 0 [] with
      | Some r =>
          let* entries := r in
          let* _ := assert (Z.of_nat (length entries) =? num_entries) "" in
          Ok entries
      | None => Raise RecursionError
      end
  end.

(** *** The working copy *)

(** A directory of the working copy: its entries by name, files with their
    content and sub-directories. *)
#[warnings="-register-all"]
Inductive node :=
| File (content : bytes)
| Dir (entries : list (string * node)).

(** [os.path.join(root, name)]. *)
Definition join (root name : string) : string := root ++ "/" ++ name.

(** The path [get_status] records for the file [name] of directory [root]. *)
Definition status_path (root name : string) : string :=
  let path := str_replace "\" "/" (join root name) in
  if String.prefix "./" path then str_drop 2 path else path.

(** The paths gathered by the [os.walk] loop of [get_status], from the
    directory [root] with entries [es]: sub-directories called [.git] are
    dropped from the walk. *)
Fixpoint walk_node (root name : string) (n : node) : list string :=
  match n with
  | File _ => [status_path root name]
  | Dir es =>
      if decide (name = ".git") then []
      else
        (fix walk_entries (es : list (string * node)) : list string :=
           match es with
           | [] => []
           | (name', n') :: es' =>
               walk_node (join root name) name' n' ++ walk_entries es'
           end) es
  end.

Definition walk (es : list (string * node)) : list string :=
  flat_map (fun e => walk_node "." e.1 e.2) es.

(** [path.split("/")], dropping empty components. *)
Fixpoint components_aux (s : string) (cur : list ascii) : list string :=
  let flush := match cur with
               | [] => []
               | _ => [string_of_list_ascii (rev cur)]
               end in
  match s with
  | EmptyString => flush
  | String c s' =>
      if Ascii.eqb c "/" then flush ++ components_aux s' []
      else components_aux s' (c :: cur)
  end.

Fixpoint lookup_entry (es : list (string * node)) (name : string) : option node :=
  match es with
  | [] => None
  | (name', n) :: es' => if decide (name' = name) then Some n else lookup_entry es' name
  end.

Fixpoint resolve (n : node) (cs : list string) : res bytes :=
  match cs with
  | [] => match n with
          | File content => Ok content
          | Dir _ => Raise IsADirectoryError
          end
  | c :: cs' =>
      match n with
      | File _ => Raise FileNotFoundError
      | Dir es =>
          match lookup_entry es c with
          | Some n' => resolve n' cs'
          | None => Raise FileNotFoundError
          end
      end
  end.

(** [read_file(p)] for a path relative to the working copy. *)
Definition read_file (es : list (string * node)) (p : string) : res bytes :=
  resolve (Dir es) (components_aux p []).

(** [{e.path: e for e in entries}]: a later entry replaces an earlier one
    of the same path. *)
Definition entries_by_path (entries : list IndexEntry) : gmap string IndexEntry :=
  fold_left (fun m e => <[path e := e]> m) entries ∅.

(** [sorted] on a set of paths. *)
Definition sorted (s : gset string) : list string :=
  merge_sort str_le (elements s).

Section Status.
Context {zlib : Zlib}.

(** The test of the [changed] comprehension for one path. *)
Definition is_changed (es : list (string * node)) (r : repo)
    (by_path : gmap string IndexEntry) (p : string) : res bool :=
  let* content := read_file es p in
  match by_path !! p with
  | None => Raise KeyError
  | Some e =>
      Ok (negb (String.eqb (hash_object content "blob" false r).1
                           (bytes_hex (sha1 e))))
  end.

Fixpoint changed_paths (es : list (string * node)) (r : repo)
    (by_path : gmap string IndexEntry) (ps : list string) : res (gset string) :=
  match ps with
  | [] => Ok ∅
  | p :: ps' =>
      let* c := is_changed es r by_path p in
      let* rest := changed_paths es r by_path ps' in
      Ok (if c then {[ p ]} ∪ rest else rest)
  end.

(** [get_status], on the working copy [es], the content [index] of
    [.git/index] and the repository [r]. *)
Definition get_status (es : list (string * node)) (index : option bytes)
    (r : repo) : res (list string * list string * list string) :=
  let paths : gset string := list_to_set (walk es) in
  let* entries := read_index index in
  let by_path := entries_by_path entries in
  let entry_paths : gset string := dom by_path in
  let* changed := changed_paths es r by_path (elements (paths ∩ entry_paths)) in
  let new := paths ∖ entry_paths in
  let deleted := entry_paths ∖ paths in
  Ok (sorted changed, sorted new, sorted deleted).

End Status.

End Pygit.

(** * The terms of the properties

    Predicates and functions in which the properties are stated, and the
    concrete inputs of the examples. *)

(** The entry [tree_parse] gives back for [e]: the digest is rendered anew
    from its value. *)
Definition reparsed (e : Wyag.GitTreeLeaf) : Wyag.GitTreeLeaf :=
  match int_of_hex (Wyag.sha e) with
  | Ok n => Wyag.Leaf (Wyag.mode e) (Wyag.path e) (hex_of_int n)
  | Raise _ => e
  end.

(** An entry that [tree_serialize] accepts and [tree_parse_one] can
    delimit: a mode of 5 or 6 bytes without space, a path without NUL, and
    a digest that is hexadecimal text of a value below 2^160. *)
Definition wf_leaf (e : Wyag.GitTreeLeaf) : Prop :=
  (length (Wyag.mode e) = 5%nat \/ length (Wyag.mode e) = 6%nat) /\
  (SP ∉ Wyag.mode e) /\ (NUL ∉ Wyag.path e) /\
  exists n, int_of_hex (Wyag.sha e) = Ok n /\ (0 <= n < 256 ^ 20).

(** The bytes of one entry. *)
Definition tree_record (e : Wyag.GitTreeLeaf) (d : bytes) : bytes :=
  Wyag.mode e ++ [SP] ++ Wyag.path e ++ [NUL] ++ d.

Definition leaf_zero : Wyag.GitTreeLeaf :=
  Wyag.Leaf (encode "100644") (encode "a.txt")
            "0a4a8fe5ccb19ba61c4c0873d391e987982fbbd3".

Definition leaf_zero_parsed : Wyag.GitTreeLeaf :=
  Wyag.Leaf (encode "100644") (encode "a.txt")
            "a4a8fe5ccb19ba61c4c0873d391e987982fbbd3".

(** [A] points to [B] and [B] points back to [A]. *)
Definition refs_cycle : gmap string string :=
  {[ "A" := "ref: B
"; "B" := "ref: A
" ]}%string.

(** A set of refs is closed under indirection when each of them is a file
    whose text, without its last character, is [ref: ] followed by the name
    of a ref of the set. *)
Definition closed_cycle (files : gmap string string) (c : gset string) : Prop :=
  forall r, r ∈ c ->
    exists text, files !! r = Some text /\
      String.prefix "ref: " (str_drop_last text) = true /\
      str_drop 5 (str_drop_last text) ∈ c.

(** The text of the header lines is empty or ends with a newline that
    closes a non-empty line. *)
Definition closed_lines (b : bytes) : Prop :=
  b = [] \/ exists f c, b = f ++ [c; NL] /\ c <> NL.

Definition kvlm_example : Wyag.dict :=
  [ (encode "tree", Wyag.VBytes (encode "29ff16c9c14e2652b22f8b78bb08a5a07930c147"));
    (encode "parent", Wyag.VList [encode "p1"; encode "p2"]);
    ([], Wyag.VBytes (encode "Initial commit")) ].

(** An instance of the zlib interface that stores the data as it is; the
    examples run on it. *)
#[local] Instance zlib_plain : Zlib :=
  {| compress := id; decompress := Some; decompress_compress := fun _ => eq_refl |}.

Definition hello : bytes := encode "hello".

(** The names of directory [dir] that start with [rest]. *)
Definition matching (dir : gmap string bytes) (rest : string) : gset string :=
  filter (fun name => String.prefix rest name = true) (dom dir).

Definition dir_cd : gmap string bytes := {[ "c1" := hello; "c2" := hello ]}%string.
Definition dir_ef : gmap string bytes := {[ "e1" := hello; "f2" := hello ]}%string.

(** An index of one entry, for the file [a]: the header, the 62 bytes of
    fields, the path and a NUL, which makes 64 bytes, then the digest. *)
Definition index_body : bytes :=
  encode "DIRC" ++ [x00; x00; x00; x02] ++ [x00; x00; x00; x01]
  ++ replicate 40 x00 ++ replicate 20 xab ++ [x00; x01] ++ encode "a" ++ [x00].

Definition index_example : bytes := index_body ++ SHA1.digest index_body.

(** Strictly ascending in the order of [str]. *)
Definition ascending (l : list string) : Prop :=
  StronglySorted (fun a b => String.ltb a b = true) l.

(** The regular files below a node: [leads_to n cs c] says that the names
    [cs], followed one after the other from [n], end at a regular file of
    content [c]. *)
Inductive leads_to : Pygit.node -> list string -> bytes -> Prop :=
| leads_file (c : bytes) : leads_to (Pygit.File c) [] c
| leads_dir (es : list (string * Pygit.node)) (name : string) (n : Pygit.node)
    (cs : list string) (c : bytes) :
    (name, n) ∈ es -> leads_to n cs c -> leads_to (Pygit.Dir es) (name :: cs) c.

(** The path of a file relative to the working copy: its names, separated
    by "/". *)
Fixpoint path_of (cs : list string) : string :=
  match cs with
  | [] => ""
  | c :: cs' =>
      match cs' with
      | [] => c
      | _ => c ++ "/" ++ path_of cs'
      end
  end.

(** The paths of the regular files under the working copy [es], the
    metadata directory left out: the files that are not inside the
    directory [.git] of the working copy. *)
Definition worktree_paths (es : list (string * Pygit.node)) (p : string) : Prop :=
  exists cs c,
    leads_to (Pygit.Dir es) cs c /\
    (forall cs', cs = ".git"%string :: cs' -> cs' = []) /\
    p = path_of cs.

(** The paths [get_status] works with: the regular files that are inside
    no directory called [.git], at whatever depth, each with the
    backslashes of its path replaced by "/". *)
Definition status_paths (es : list (string * Pygit.node)) (p : string) : Prop :=
  exists cs c,
    leads_to (Pygit.Dir es) cs c /\
    (".git"%string ∉ removelast cs) /\
    p = str_replace "\" "/" (path_of cs).

(** A working copy with a directory called [.git] below a sub-directory. *)
Definition nested_tree : list (string * Pygit.node) :=
  [ ("sub", Pygit.Dir [(".git", Pygit.Dir [("x", Pygit.File hello)])]) ]%string.

(** The directory [os.walk] is at after going down the directories [ds]
    from ["."]. *)
Definition root_of (ds : list string) : string := fold_left Pygit.join ds ".".

(** The bytes of an index entry for a one-letter path, all fields zero but
    the digest and the flags. *)
Definition index_entry (sha : bytes) (name : string) : bytes :=
  replicate 40 x00 ++ sha ++ [x00; x01] ++ encode name ++ [x00].

(** The scenario of the specification: the index holds [a], with the
    digest of an older content, and [c]; the working copy holds [a] with a
    new content, the untracked [b] and [sub/d], and no [c]. *)
Definition status_index_body : bytes :=
  encode "DIRC" ++ [x00; x00; x00; x02] ++ [x00; x00; x00; x02]
  ++ index_entry (SHA1.digest (encode "blob 3" ++ [x00] ++ encode "old")) "a"
  ++ index_entry (SHA1.digest (encode "blob 4" ++ [x00] ++ encode "gone")) "c".

Definition status_index : bytes :=
  status_index_body ++ SHA1.digest status_index_body.

Definition status_entries : list Pygit.IndexEntry :=
  Eval vm_compute in
    match Pygit.read_index (Some status_index) with
    | Ok entries => entries
    | Raise _ => []
    end.

Definition status_tree : list (string * Pygit.node) :=
  [ ("a", Pygit.File (encode "new"));
    ("b", Pygit.File (encode "untracked"));
    (".git", Pygit.Dir [("HEAD", Pygit.File (encode "ref: refs/heads/master"))]);
    ("sub", Pygit.Dir [("d", Pygit.File (encode "deep"))]) ]%string.

Fixpoint all_chars (P : ascii -> bool) (s : string) : bool :=
  match s with
  | EmptyString => true
  | String c s' => P c && all_chars P s'
  end.

(** A character that may stand in a header: ASCII and not NUL. *)
Definition header_char (c : ascii) : bool :=
  ((0 <? N_of_ascii c) && (N_of_ascii c <? 128))%N.

(** A type tag that [read_object] reads back as one word: not empty, made
    of ASCII characters other than NUL and white space. *)
Definition is_tag (t : string) : bool :=
  negb (String.eqb t "") &&
  all_chars (fun c => header_char c && negb (is_space c)) t.

(** The bytes [hash_object] hashes and stores for [data] under the type
    [t]. *)
Definition full_data (t : string) (data : bytes) : bytes :=
  encode (t ++ " " ++ str_of_nat (length data)) ++ [x00] ++ data.

(** The four type tags [object_read] knows. *)
Definition known_tags : list bytes :=
  [encode "commit"; encode "tree"; encode "tag"; encode "blob"].

(** The object [foo 5\0hello], stored as plain data at its address. *)
Definition objs_foo : objdir :=
  {[ "cd"%string := {[ "b46ef5bd618f6276ba2a1228afc92c9c2e65fa"%string :=
        encode "foo 5" ++ [NUL] ++ hello ]} ]}.

(** A key of a header line: not empty, without space and without
    newline. *)
Definition wf_key (k : bytes) : Prop := k <> [] /\ (SP ∉ k) /\ (NL ∉ k).

(** A value as [kvlm_parse] builds it: bytes, or a list of two or more. *)
Definition wf_value (val : Wyag.value) : Prop :=
  match val with
  | Wyag.VBytes _ => True
  | Wyag.VList l => (2 <= length l)%nat
  end.

(** The header fields of a mapping: each key once, keys and values as
    above. *)
Definition wf_fields (fields : Wyag.dict) : Prop :=
  NoDup fields.*1 /\ Forall (fun kv => wf_key kv.1 /\ wf_value kv.2) fields.

Definition values_of (val : Wyag.value) : list bytes :=
  match val with
  | Wyag.VList l => l
  | Wyag.VBytes b => [b]
  end.

(** The header lines of a mapping, as pairs of a key and one value. *)
Definition lines_of (kvlm : Wyag.dict) : list (bytes * bytes) :=
  flat_map (fun kv => if decide (kv.1 = []) then []
                      else (fun v => (kv.1, v)) <$> values_of kv.2) kvlm.

Definition kvlm_line (kv : bytes * bytes) : bytes :=
  kv.1 ++ [SP] ++ replace_byte NL [NL; SP] kv.2 ++ [NL].

Definition ser_lines (ls : list (bytes * bytes)) : bytes := flat_map kvlm_line ls.

(** What [kvlm_parse] does to its dictionary for one header line. *)
Definition add_line (dct : Wyag.dict) (kv : bytes * bytes) : Wyag.dict :=
  match Wyag.dict_get dct kv.1 with
  | Some (Wyag.VList l) => Wyag.dict_set dct kv.1 (Wyag.VList (l ++ [kv.2]))
  | Some (Wyag.VBytes b) => Wyag.dict_set dct kv.1 (Wyag.VList [b; kv.2])
  | None => Wyag.dict_set dct kv.1 (Wyag.VBytes kv.2)
  end.

(** A list value of one element comes back as plain bytes. *)
Definition kvlm_single : Wyag.dict :=
  [ (encode "parent", Wyag.VList [encode "p1"]); ([], Wyag.VBytes (encode "msg")) ].

Definition kvlm_single_parsed : Wyag.dict :=
  [ (encode "parent", Wyag.VBytes (encode "p1")); ([], Wyag.VBytes (encode "msg")) ].

(** The file [n] of directory [d] of the object directory. *)
Definition stored (objs : objdir) (d n : string) : option bytes :=
  objs !! d ≫= (.!! n).

(** Every stored file sits at the address of its own content: it
    decompresses to bytes whose SHA-1, in hexadecimal, is the name of the
    directory followed by the name of the file. *)
Definition content_addressed {zlib : Zlib} (objs : objdir) : Prop :=
  forall d n c, stored objs d n = Some c ->
    exists full, decompress c = Some full /\ SHA1.hexdigest full = (d ++ n)%string.

(** What [object_read] builds from the type tag [f] and the payload
    [data] of a stored object. *)
Definition deserialize (depth : nat) (f data : bytes) : option (res Wyag.GitObject) :=
  if decide (f = encode "commit") then
    Wyag.lift Wyag.GitCommit (Wyag.kvlm_parse depth data 0 [])
  else if decide (f = encode "tree") then Wyag.lift Wyag.GitTree (Wyag.tree_parse data)
  else if decide (f = encode "tag") then
    Wyag.lift Wyag.GitTag (Wyag.kvlm_parse depth data 0 [])
  else if decide (f = encode "blob") then Some (Ok (Wyag.GitBlob data))
  else None.


(** The data on which the loop of [tree_parse] comes back to position 20 for
    ever: no NUL byte anywhere, and a mode of 5 or 6 bytes followed by a
    space at position 0 and again at position 20. *)
Definition unterminated (raw : bytes) : Prop :=
  (NUL ∉ raw) /\ (20 < length raw)%nat /\
  (find raw SP 0 = 5 \/ find raw SP 0 = 6) /\
  (find raw SP 20 = 25 \/ find raw SP 20 = 26).

Definition unterminated_example : bytes :=
  encode "100644 aaaaaaaaaaaaa100644 b".

(** An entry as [struct.unpack] and the loop of [read_index] deliver it:
    ten fields of 32 bits, a digest of exactly 20 bytes, flags of 16 bits
    and a path without NUL byte. *)
Definition entry_ok (e : Pygit.IndexEntry) : Prop :=
  Forall (fun z => 0 <= z < 2 ^ 32)
    [Pygit.ctime_s e; Pygit.ctime_n e; Pygit.mtime_s e; Pygit.mtime_n e;
     Pygit.dev e; Pygit.ino e; Pygit.mode e; Pygit.uid e; Pygit.gid e;
     Pygit.size e] /\
  length (Pygit.sha1 e) = 20%nat /\
  0 <= Pygit.flags e < 2 ^ 16 /\
  (NUL ∉ encode (Pygit.path e)).

(** [HEAD] points to the branch [master], which holds a digest. *)
Definition refs_head : gmap string string :=
  {[ "HEAD" := "ref: refs/heads/master
";
     "refs/heads/master" := "29ff16c9c14e2652b22f8b78bb08a5a07930c147
" ]}%string.

(** * Properties *)

(** ** Positions in a byte string *)

Section Positions.

Lemma clamp_nat (n i : nat) : clamp n (Z.of_nat i) = Nat.min i n.
Proof.
  unfold clamp. destruct (Z.ltb_spec (Z.of_nat i) 0); lia.
Qed.

Lemma index_of_app (b : byte) (a rest : bytes) :
  b ∉ a -> index_of b (a ++ b :: rest) = Some (length a).
Proof.
  induction a as [|c a IH]; intros Hb; simpl.
  - by rewrite decide_True.
  - apply not_elem_of_cons in Hb as [Hc Hb].
    rewrite decide_False by done. by rewrite IH.
Qed.

Lemma index_of_none (b : byte) (a : bytes) : b ∉ a -> index_of b a = None.
Proof.
  induction a as [|c a IH]; intros Hb; simpl; [done|].
  apply not_elem_of_cons in Hb as [Hc Hb].
  rewrite decide_False by done. by rewrite IH.
Qed.

Lemma index_of_skip (b : byte) (a rest : bytes) :
  b ∉ a -> index_of b (a ++ rest) = (fun i => (length a + i)%nat) <$> index_of b rest.
Proof.
  induction a as [|c a IH]; intros Hb; simpl.
  - by destruct (index_of b rest).
  - apply not_elem_of_cons in Hb as [Hc Hb].
    rewrite decide_False by done. rewrite IH by done.
    by destruct (index_of b rest).
Qed.

(** Looking for [b] from position [e] of [a ++ b :: rest], when no [b]
    lies between [e] and the end of [a]. *)
Lemma find_first (b : byte) (a rest : bytes) (e : nat) :
  (e <= length a)%nat -> b ∉ drop e a ->
  find (a ++ b :: rest) b (Z.of_nat e) = Z.of_nat (length a).
Proof.
  intros He Hb. unfold find. rewrite clamp_nat, length_app. simpl.
  destruct (Z.ltb_spec (Z.of_nat (length a + S (length rest))) (Z.of_nat e)); [lia|].
  replace (e `min` (length a + S (length rest)))%nat with e by lia.
  rewrite drop_app_le by done. rewrite index_of_app by done.
  rewrite length_drop. f_equal. lia.
Qed.

(** Looking for [b] from the end of [a] in [a ++ rest]. *)
Lemma find_at (b : byte) (a rest : bytes) :
  find (a ++ rest) b (Z.of_nat (length a))
  = match index_of b rest with
    | Some i => Z.of_nat (length a + i)
    | None => -1
    end.
Proof.
  unfold find. rewrite clamp_nat, length_app.
  destruct (Z.ltb_spec (Z.of_nat (length a + length rest)) (Z.of_nat (length a))); [lia|].
  replace (length a `min` (length a + length rest))%nat with (length a) by lia.
  by rewrite drop_app_length.
Qed.

Lemma slice_at {A} (a mid rest : list A) :
  slice (a ++ mid ++ rest) (Z.of_nat (length a)) (Z.of_nat (length a + length mid)) = mid.
Proof.
  unfold slice. rewrite !clamp_nat, !length_app.
  replace (length a `min` _)%nat with (length a) by lia.
  replace ((length a + length mid) `min` _ - length a)%nat with (length mid) by lia.
  by rewrite drop_app_length, take_app_length.
Qed.

Lemma slice_from_at {A} (a rest : list A) :
  slice_from (a ++ rest) (Z.of_nat (length a)) = rest.
Proof.
  unfold slice_from. rewrite clamp_nat, length_app.
  replace (length a `min` _)%nat with (length a) by lia.
  by rewrite drop_app_length.
Qed.

Lemma item_at (a : bytes) (c : byte) (rest : bytes) :
  item (a ++ c :: rest) (Z.of_nat (length a)) = Ok c.
Proof.
  unfold item. rewrite length_app. simpl.
  destruct (Z.ltb_spec (Z.of_nat (length a)) 0); [lia|].
  destruct (Z.ltb_spec (Z.of_nat (length a)) 0); [lia|].
  destruct (Z.leb_spec (Z.of_nat (length a + S (length rest))) (Z.of_nat (length a))); [lia|].
  simpl. rewrite Nat2Z.id. by rewrite list_lookup_middle.
Qed.

(** The same facts, for a byte string given by an equation. *)
Lemma find_first_eq (raw : bytes) (b : byte) (a rest : bytes) (e : nat) (p : Z) :
  raw = a ++ b :: rest -> p = Z.of_nat e ->
  (e <= length a)%nat -> b ∉ drop e a ->
  find raw b p = Z.of_nat (length a).
Proof. intros -> ->. apply find_first. Qed.

Lemma item_at_eq (raw a : bytes) (c : byte) (rest : bytes) (p : Z) :
  raw = a ++ c :: rest -> p = Z.of_nat (length a) -> item raw p = Ok c.
Proof. intros -> ->. apply item_at. Qed.

Lemma slice_eq {A} (raw a mid rest : list A) (p q : Z) :
  raw = a ++ mid ++ rest ->
  p = Z.of_nat (length a) -> q = Z.of_nat (length a + length mid) ->
  slice raw p q = mid.
Proof. intros -> -> ->. apply slice_at. Qed.

Lemma substring_all (s : string) : substring 0 (String.length s) s = s.
Proof. induction s as [|c s IH]; [done|]. simpl. by rewrite IH. Qed.

End Positions.

(** ** The tree codec *)

(** C1. The round trip of the tree codec loses the leading zeros of a
    digest: for the single entry [leaf_zero], whose digest begins with the
    digit 0, [tree_serialize] succeeds and [tree_parse] of its output
    returns an entry whose digest has 39 characters, so the parsed list is
    not the list that was serialized. *)
Theorem tree_roundtrip_loses_leading_zero :
  exists raw,
    Wyag.tree_serialize [leaf_zero] = Ok raw /\
    Wyag.tree_parse raw = Some (Ok [leaf_zero_parsed]) /\
    String.length (Wyag.sha leaf_zero) = 40%nat /\
    String.length (Wyag.sha leaf_zero_parsed) = 39%nat /\
    [leaf_zero_parsed] <> [leaf_zero].
Proof.
  eexists. split; [vm_compute; reflexivity|].
  split; [vm_compute; reflexivity|].
  split; [reflexivity|]. split; [reflexivity|].
  intros E. inversion E.
Qed.

Section Tree.

Lemma byte_of_small (n : Z) :
  0 <= n < 256 ->
  exists c, Byte.of_N (Z.to_N n) = Some c /\ Z.of_N (Byte.to_N c) = n.
Proof.
  intros Hn. destruct (Byte.of_N (Z.to_N n)) as [c|] eqn:E.
  - exists c. split; [done|]. apply Byte.to_of_N in E. lia.
  - apply Byte.of_N_None_iff in E. lia.
Qed.

Lemma from_to_bytes (len : nat) (n : Z) (acc : bytes) :
  0 <= n < 256 ^ Z.of_nat len ->
  fold_left (fun a c => a * 256 + Z.of_N (Byte.to_N c)) (to_bytes_aux len n acc) 0
  = fold_left (fun a c => a * 256 + Z.of_N (Byte.to_N c)) acc n /\
  length (to_bytes_aux len n acc) = (len + length acc)%nat.
Proof.
  revert n acc. induction len as [|len IH]; intros n acc Hn.
  - simpl in *. replace n with 0 by lia. done.
  - rewrite Nat2Z.inj_succ, Z.pow_succ_r in Hn by lia.
    cbn [to_bytes_aux].
    destruct (byte_of_small (n mod 256)) as (c & -> & Hc);
      [apply Z.mod_pos_bound; lia|].
    destruct (IH (n / 256) (c :: acc)) as [IH1 IH2].
    { split; [apply Z.div_pos; lia|]. apply Z.div_lt_upper_bound; lia. }
    rewrite IH1, IH2. split; [|simpl; lia].
    cbn [fold_left]. f_equal. rewrite Hc.
    pose proof (Z.div_mod n 256). lia.
Qed.

Lemma int_from_to_bytes (n : Z) (d : bytes) :
  int_to_bytes n 20 = Ok d -> int_from_bytes d = n /\ length d = 20%nat.
Proof.
  unfold int_to_bytes.
  destruct (Z.ltb_spec n 0); [done|].
  destruct (Z.leb_spec (256 ^ Z.of_nat 20) n); [done|].
  cbn [orb]. intros E.
  assert (d = to_bytes_aux 20 n []) as -> by congruence.
  destruct (from_to_bytes 20 n []) as [H1 H2]; [lia|].
  split; [exact H1|exact H2].
Qed.

Lemma tree_parse_one_record (pre rest raw d : bytes) (e : Wyag.GitTreeLeaf) (n : Z) :
  raw = pre ++ tree_record e d ++ rest ->
  (length (Wyag.mode e) = 5%nat \/ length (Wyag.mode e) = 6%nat) ->
  SP ∉ Wyag.mode e -> NUL ∉ Wyag.path e ->
  int_to_bytes n 20 = Ok d ->
  Wyag.tree_parse_one raw (Z.of_nat (length pre))
  = Ok (Z.of_nat (length (pre ++ tree_record e d)),
        Wyag.Leaf (Wyag.mode e) (Wyag.path e) (hex_of_int n)).
Proof.
  intros Hraw Hlen Hsp Hnul Hd. destruct e as [m p s]. simpl in *.
  destruct (int_from_to_bytes n d Hd) as [Hn Hdl].
  unfold tree_record in *. cbn [Wyag.mode Wyag.path] in *.
  unfold Wyag.tree_parse_one.
  assert (find raw SP (Z.of_nat (length pre)) = Z.of_nat (length (pre ++ m))) as ->.
  { apply (find_first_eq raw SP (pre ++ m) (p ++ [NUL] ++ d ++ rest) (length pre)).
    - by rewrite Hraw, <- !app_assoc.
    - done.
    - rewrite length_app. lia.
    - by rewrite drop_app_length. }
  assert (find raw NUL (Z.of_nat (length (pre ++ m)))
          = Z.of_nat (length (pre ++ m ++ [SP] ++ p))) as ->.
  { apply (find_first_eq raw NUL (pre ++ m ++ [SP] ++ p) (d ++ rest) (length (pre ++ m))).
    - by rewrite Hraw, <- !app_assoc.
    - done.
    - rewrite !length_app. lia.
    - rewrite (app_assoc pre m), drop_app_length.
      intros [E|E]%elem_of_cons; done. }
  replace ((_ =? 5) || (_ =? 6)) with true.
  2:{ symmetry. apply orb_true_iff. rewrite length_app, !Z.eqb_eq. lia. }
  cbn [assert bind].
  rewrite (slice_eq raw pre m ([SP] ++ p ++ [NUL] ++ d ++ rest));
    [|by rewrite Hraw, <- !app_assoc|done|by rewrite length_app].
  rewrite (slice_eq raw (pre ++ m ++ [SP]) p ([NUL] ++ d ++ rest));
    [|by rewrite Hraw, <- !app_assoc|rewrite !length_app; simpl; lia..].
  rewrite (slice_eq raw (pre ++ m ++ [SP] ++ p ++ [NUL]) d rest);
    [|by rewrite Hraw, <- !app_assoc|rewrite !length_app; simpl; lia..].
  rewrite Hn. do 2 f_equal. rewrite !length_app. simpl. lia.
Qed.

Lemma tree_serialize_records (es : list Wyag.GitTreeLeaf) (ret : bytes) :
  Forall wf_leaf es ->
  exists recs,
    Wyag.tree_serialize_from ret es = Ok (ret ++ recs) /\
    (length es <= length recs)%nat /\
    forall pre rest (done_ : list Wyag.GitTreeLeaf) fuel,
      (length es <= fuel)%nat ->
      Wyag.tree_parse_loop fuel (pre ++ recs ++ rest) (Z.of_nat (length pre)) done_
      = Wyag.tree_parse_loop (fuel - length es) (pre ++ recs ++ rest)
          (Z.of_nat (length (pre ++ recs))) (done_ ++ (reparsed <$> es)).
Proof.
  revert ret. induction es as [|e es IH]; intros ret Hwf.
  - exists []. split; [by rewrite app_nil_r|]. split; [done|].
    intros pre rest done_ fuel _. simpl. by rewrite !app_nil_r, Nat.sub_0_r.
  - apply Forall_cons in Hwf as [(Hlen & Hsp & Hnul & n & Hn & Hr) Hwf].
    cbn [Wyag.tree_serialize_from]. rewrite Hn. cbn [bind].
    destruct (int_to_bytes n 20) as [d|] eqn:Hd.
    2:{ unfold int_to_bytes in Hd.
        destruct (Z.ltb_spec n 0); [lia|].
        destruct (Z.leb_spec (256 ^ Z.of_nat 20) n); [lia|]. done. }
    cbn [bind].
    destruct (IH (ret ++ Wyag.mode e ++ [SP] ++ Wyag.path e ++ [NUL] ++ d) Hwf)
      as (recs & Hser & Hrl & Hparse).
    exists (tree_record e d ++ recs). split.
    { rewrite Hser. unfold tree_record. by rewrite <- !app_assoc. }
    split.
    { unfold tree_record. rewrite !length_app. simpl. lia. }
    intros pre rest done_ fuel Hfuel.
    destruct fuel as [|fuel]; [simpl in Hfuel; lia|].
    cbn [Wyag.tree_parse_loop].
    destruct (int_from_to_bytes n d Hd) as [_ Hdl].
    replace (Z.of_nat (length (pre ++ (tree_record e d ++ recs) ++ rest)) <=? Z.of_nat (length pre))
      with false.
    2:{ symmetry. apply Z.leb_gt. unfold tree_record. rewrite !length_app. simpl. lia. }
    rewrite (tree_parse_one_record pre (recs ++ rest) _ d e n);
      [|by rewrite <- !app_assoc|done..].
    replace (pre ++ (tree_record e d ++ recs) ++ rest)
      with ((pre ++ tree_record e d) ++ recs ++ rest) by (by rewrite <- !app_assoc).
    rewrite Hparse by (simpl in Hfuel; lia).
    f_equal.
    + by rewrite <- !app_assoc.
    + rewrite fmap_cons.
      replace (reparsed e)
        with (Wyag.Leaf (Wyag.mode e) (Wyag.path e) (hex_of_int n))
        by (unfold reparsed; by rewrite Hn).
      by rewrite <- app_assoc.
Qed.

End Tree.

(** Apart from the digest, the round trip of the tree codec is exact: a
    list of entries that can be serialized comes back in the same order,
    with the same modes and paths, each digest being rendered anew from its
    value by [hex], hence without its leading zeros. *)
Theorem tree_roundtrip_reparsed (es : list Wyag.GitTreeLeaf) :
  Forall wf_leaf es ->
  exists raw,
    Wyag.tree_serialize es = Ok raw /\
    Wyag.tree_parse raw = Some (Ok (reparsed <$> es)).
Proof.
  intros Hwf.
  destruct (tree_serialize_records es [] Hwf) as (recs & Hser & Hlen & Hparse).
  exists recs. split; [exact Hser|].
  unfold Wyag.tree_parse.
  specialize (Hparse [] [] [] (length recs) Hlen).
  rewrite app_nil_r in Hparse. simpl in Hparse.
  change (Z.of_nat 0) with 0 in Hparse. rewrite Hparse.
  destruct (length recs - length es)%nat; simpl; by rewrite Z.leb_refl.
Qed.

Section Hex.

Lemma hex_value_digit (d : Z) : 0 <= d < 16 -> hex_value (hex_digit d) = Some d.
Proof.
  intros Hd.
  assert (d = 0 \/ d = 1 \/ d = 2 \/ d = 3 \/ d = 4 \/ d = 5 \/ d = 6 \/ d = 7 \/
          d = 8 \/ d = 9 \/ d = 10 \/ d = 11 \/ d = 12 \/ d = 13 \/ d = 14 \/ d = 15)
    as H by lia.
  repeat (destruct H as [->|H]; [reflexivity|]). by subst.
Qed.

Lemma int_of_hex_digits (fuel : nat) (n : Z) (s : string) :
  0 <= n < 16 ^ Z.of_nat fuel ->
  int_of_hex_aux (hex_digits fuel n s) 0 = int_of_hex_aux s n.
Proof.
  revert n s. induction fuel as [|fuel IH]; intros n s Hn.
  - simpl in *. by replace n with 0 by lia.
  - rewrite Nat2Z.inj_succ, Z.pow_succ_r in Hn by lia.
    cbn [hex_digits]. destruct (Z.leb_spec n 0).
    + by replace n with 0 by lia.
    + rewrite IH.
      2:{ split; [apply Z.div_pos; lia|]. apply Z.div_lt_upper_bound; lia. }
      cbn [int_of_hex_aux]. rewrite hex_value_digit by (apply Z.mod_pos_bound; lia).
      f_equal. pose proof (Z.div_mod n 16). lia.
Qed.

Lemma hex_digits_nonempty (fuel : nat) (n : Z) (s : string) :
  s <> ""%string -> hex_digits fuel n s <> ""%string.
Proof.
  revert n s. induction fuel as [|fuel IH]; intros n s Hs; [done|].
  cbn [hex_digits]. destruct (n <=? 0); [done|]. by apply IH.
Qed.

(** [int(hex(n)[2:], 16)] is [n]. *)
Lemma int_of_hex_of_int (n : Z) : 0 <= n -> int_of_hex (hex_of_int n) = Ok n.
Proof.
  intros Hn. unfold hex_of_int. destruct (Z.leb_spec n 0).
  - by replace n with 0 by lia.
  - assert (hex_digits (S (Z.to_nat (Z.log2 n))) n "" <> ""%string) as Hne.
    { cbn [hex_digits]. destruct (Z.leb_spec n 0); [lia|].
      by apply hex_digits_nonempty. }
    unfold int_of_hex. rewrite int_of_hex_digits.
    + by destruct (hex_digits _ _ _).
    + split; [lia|]. rewrite Nat2Z.inj_succ, Z2Nat.id by apply Z.log2_nonneg.
      destruct (Z.log2_spec n) as [_ Hlt]; [lia|].
      eapply Z.lt_le_trans; [exact Hlt|].
      apply Z.pow_le_mono_l. lia.
Qed.

(** A digest in the form [hex] gives it has no leading zero, and is read
    back as it is. *)
Lemma reparsed_canonical (e : Wyag.GitTreeLeaf) (n : Z) :
  0 <= n -> Wyag.sha e = hex_of_int n -> reparsed e = e.
Proof.
  intros Hn He. unfold reparsed. rewrite He, int_of_hex_of_int by done.
  destruct e as [m p s]. simpl in *. by rewrite He.
Qed.

End Hex.

(** When no digest has a leading zero, the entries come back as they
    were. *)
Theorem tree_roundtrip_canonical (es : list Wyag.GitTreeLeaf) :
  Forall wf_leaf es ->
  Forall (fun e => exists n, 0 <= n /\ Wyag.sha e = hex_of_int n) es ->
  exists raw,
    Wyag.tree_serialize es = Ok raw /\
    Wyag.tree_parse raw = Some (Ok es).
Proof.
  intros Hwf Hc. destruct (tree_roundtrip_reparsed es Hwf) as (raw & Hs & Hp).
  exists raw. split; [done|]. rewrite Hp. do 2 f_equal.
  clear Hwf Hs Hp. induction Hc as [|e es (n & Hn & He) _ IH]; [done|].
  rewrite fmap_cons, IH. f_equal. by apply (reparsed_canonical e n).
Qed.

(** ** Ref resolution *)

(** C3, as stated, fails: on the two-ref cycle [refs_cycle], with the
    recursion depth of 1000 calls that the interpreter allows by default,
    [ref_resolve] follows the cycle until the interpreter stops it, and the
    failure is its [RecursionError], not the report of a cycle. *)
Lemma ref_cycle_hits_recursion_limit :
  Wyag.ref_resolve 1000 refs_cycle "A" = Raise RecursionError.
Proof. vm_compute. reflexivity. Qed.

(** C3, amended. On refs that form a cycle of indirections [ref_resolve]
    never returns a digest and never detects the cycle: whatever recursion
    depth is allowed, the recursion uses all of it and ends in
    [RecursionError]. *)
Theorem ref_cycle_never_resolves (files : gmap string string) (c : gset string)
    (depth : nat) (r : string) :
  closed_cycle files c -> r ∈ c ->
  Wyag.ref_resolve depth files r = Raise RecursionError.
Proof.
  intros Hc. revert r. induction depth as [|depth IH]; intros r Hr; [reflexivity|].
  destruct (Hc r Hr) as (text & Hf & Hp & Hn).
  simpl. rewrite Hf, Hp. by apply IH.
Qed.

Lemma ref_cycle_never_resolves_witness :
  Wyag.ref_resolve 7 refs_cycle "B" = Raise RecursionError.
Proof.
  apply (ref_cycle_never_resolves refs_cycle {[ "A"; "B" ]}%string).
  - intros r Hr.
    assert (r = "A" \/ r = "B")%string as [->| ->] by set_solver.
    + exists "ref: B
"%string. split; [reflexivity|]. split; [reflexivity|].
      vm_compute str_drop. set_solver.
    + exists "ref: A
"%string. split; [reflexivity|]. split; [reflexivity|].
      vm_compute str_drop. set_solver.
  - set_solver.
Defined.

(** ** The KVLM codec: serialization *)

Section KvlmSerialize.

Lemma replace_byte_app old new a b :
  replace_byte old new (a ++ b) = replace_byte old new a ++ replace_byte old new b.
Proof.
  induction a as [|c a IH]; [reflexivity|].
  simpl. destruct (decide (c = old)); rewrite IH; by rewrite ?app_assoc.
Qed.

Lemma folded_value_last (v : bytes) :
  exists f c, [SP] ++ replace_byte NL [NL; SP] v = f ++ [c] /\ c <> NL.
Proof.
  induction v as [|x v _] using rev_ind.
  - exists [], SP. by split.
  - rewrite replace_byte_app. simpl. destruct (decide (x = NL)).
    + exists ([SP] ++ replace_byte NL [NL; SP] v ++ [NL]), SP.
      split; [by rewrite <- !app_assoc|done].
    + exists ([SP] ++ replace_byte NL [NL; SP] v), x.
      split; [by rewrite <- !app_assoc|done].
Qed.

Lemma kvlm_line_closed (ret k v : bytes) :
  closed_lines (ret ++ k ++ [SP] ++ replace_byte NL [NL; SP] v ++ [NL]).
Proof.
  destruct (folded_value_last v) as (f & c & E & Hc).
  right. exists (ret ++ k ++ f), c. split; [|done].
  rewrite (app_assoc [SP]), E. by rewrite <- !app_assoc.
Qed.

Lemma kvlm_item_closed (ret : bytes) (kv : bytes * Wyag.value) :
  closed_lines ret -> closed_lines (Wyag.kvlm_item ret kv).
Proof.
  destruct kv as [k val]. unfold Wyag.kvlm_item.
  destruct (decide (k = [])); [done|].
  generalize (match val with Wyag.VList l => l | Wyag.VBytes b => [b] end).
  intros vals. revert ret. induction vals as [|v vals IH]; intros ret Hret; [done|].
  simpl. apply IH, kvlm_line_closed.
Qed.

Lemma kvlm_items_closed (kvlm : Wyag.dict) (ret : bytes) :
  closed_lines ret -> closed_lines (fold_left Wyag.kvlm_item kvlm ret).
Proof.
  revert ret. induction kvlm as [|kv kvlm IH]; intros ret Hret; [done|].
  simpl. by apply IH, kvlm_item_closed.
Qed.

End KvlmSerialize.

(** C10. [kvlm_serialize] needs the message entry: without an entry for the
    empty key it raises [KeyError] and produces nothing; with the message
    [msg] under the empty key its output is the header lines, one empty
    line, and [msg] unchanged, the header lines being either absent or
    ended by a line that is not empty, so that the empty line is the only
    one. *)
Theorem kvlm_serialize_message (kvlm : Wyag.dict) :
  (Wyag.dict_get kvlm [] = None -> Wyag.kvlm_serialize kvlm = Raise KeyError) /\
  (forall msg, Wyag.dict_get kvlm [] = Some (Wyag.VBytes msg) ->
     exists fields,
       Wyag.kvlm_serialize kvlm = Ok (fields ++ [NL] ++ msg) /\
       closed_lines fields).
Proof.
  split.
  - intros E. unfold Wyag.kvlm_serialize. by rewrite E.
  - intros msg E. exists (fold_left Wyag.kvlm_item kvlm []).
    unfold Wyag.kvlm_serialize. rewrite E. split; [done|].
    apply kvlm_items_closed. by left.
Qed.

Lemma kvlm_serialize_message_witness :
  Wyag.kvlm_serialize [(encode "tree", Wyag.VBytes (encode "abc"))] = Raise KeyError /\
  exists fields,
    Wyag.kvlm_serialize kvlm_example = Ok (fields ++ [NL] ++ encode "Initial commit") /\
    closed_lines fields.
Proof.
  split.
  - apply (kvlm_serialize_message [(encode "tree", Wyag.VBytes (encode "abc"))]).
    reflexivity.
  - apply (kvlm_serialize_message kvlm_example). reflexivity.
Defined.

(** ** The object store: writing twice *)

(** C4, as stated, fails for [object_write]: written twice on an empty
    repository, the blob [hello] gets the same digest both times, and the
    second call writes the object file again although the first call has
    put it there. *)
Lemma object_write_writes_again :
  exists sha r1 r2,
    Wyag.object_write (Wyag.GitBlob hello) true (Wyag.Repo ∅ []) = Ok (sha, r1) /\
    Wyag.object_write (Wyag.GitBlob hello) true r1 = Ok (sha, r2) /\
    length (Wyag.written r1) = 1%nat /\
    length (Wyag.written r2) = 2%nat.
Proof.
  eexists _, _, _. split; [reflexivity|]. split; [reflexivity|].
  split; reflexivity.
Qed.

Section WriteTwice.
Context {zlib : Zlib}.

Lemma exists_after_write (r : Pygit.repo) (d n : string) (data : bytes) :
  Pygit.exists_object (Pygit.write_file r d n data) d n = true.
Proof.
  unfold Pygit.exists_object, Pygit.write_file. simpl.
  rewrite lookup_insert_eq. apply bool_decide_eq_true.
  rewrite lookup_insert_eq. by eexists.
Qed.

Lemma hash_object_twice (data : bytes) (t : string) (r : Pygit.repo) :
  Pygit.hash_object data t true (Pygit.hash_object data t true r).2
  = Pygit.hash_object data t true r.
Proof.
  unfold Pygit.hash_object. cbv zeta.
  set (sha := SHA1.hexdigest _).
  destruct (Pygit.exists_object r _ _) eqn:E; cbn [snd].
  - by rewrite E.
  - by rewrite exists_after_write.
Qed.

Lemma write_object_file_twice (r : Wyag.repo) (d n : string) (data : bytes) :
  Wyag.objects (Wyag.write_object_file (Wyag.write_object_file r d n data) d n data)
  = Wyag.objects (Wyag.write_object_file r d n data).
Proof.
  unfold Wyag.write_object_file. simpl.
  rewrite lookup_insert_eq. simpl.
  by rewrite !insert_insert_eq.
Qed.

End WriteTwice.

(** C4, amended. Writing the same content twice returns the same digest
    both times, never raises once the first call has succeeded, and leaves
    the object directory as the first call left it.  [hash_object] finds
    the object at its address and writes nothing the second time;
    [object_write] makes no such test and writes the same bytes to the same
    file again. *)
Theorem write_twice {zlib : Zlib} (data : bytes) (t : string) (r : Pygit.repo)
    (obj : Wyag.GitObject) (w : Wyag.repo) (sha : string) (w1 : Wyag.repo) :
  Wyag.object_write obj true w = Ok (sha, w1) ->
  Pygit.hash_object data t true (Pygit.hash_object data t true r).2
    = Pygit.hash_object data t true r /\
  exists w2,
    Wyag.object_write obj true w1 = Ok (sha, w2) /\
    Wyag.objects w2 = Wyag.objects w1 /\
    Wyag.written w2 = (str_take 2 sha, str_drop 2 sha) :: Wyag.written w1.
Proof.
  intros Hw. split; [apply hash_object_twice|].
  unfold Wyag.object_write in *.
  destruct (Wyag.serialize obj) as [b|e]; simpl in *; [|done].
  injection Hw as <- <-.
  eexists. split; [reflexivity|]. split; [|reflexivity].
  apply write_object_file_twice.
Qed.

Lemma write_twice_witness :
  Pygit.hash_object hello "blob" true
      (Pygit.hash_object hello "blob" true (Pygit.Repo ∅ [])).2
    = Pygit.hash_object hello "blob" true (Pygit.Repo ∅ []) /\
  exists w2,
    Wyag.object_write (Wyag.GitBlob hello) true
      (Wyag.write_object_file (Wyag.Repo ∅ []) "b6"
         "fc4c620b67d95f953a5c1c1230aaab5db5a1b0"
         (compress (encode "blob 5" ++ [NUL] ++ hello)))
      = Ok ("b6fc4c620b67d95f953a5c1c1230aaab5db5a1b0"%string, w2) /\
    Wyag.objects w2
      = Wyag.objects (Wyag.write_object_file (Wyag.Repo ∅ []) "b6"
         "fc4c620b67d95f953a5c1c1230aaab5db5a1b0"
         (compress (encode "blob 5" ++ [NUL] ++ hello))) /\
    Wyag.written w2
      = [("b6", "fc4c620b67d95f953a5c1c1230aaab5db5a1b0");
         ("b6", "fc4c620b67d95f953a5c1c1230aaab5db5a1b0")]%string.
Proof.
  apply (write_twice hello "blob" (Pygit.Repo ∅ []) (Wyag.GitBlob hello)
           (Wyag.Repo ∅ [])).
  reflexivity.
Defined.

(** ** The object store: finding an object by a prefix *)

(** C6, as stated, fails on the report of an ambiguous prefix: the error
    gives the number of matches and the prefix, not the candidates.  Two
    object directories whose candidates for [ab] have no name in common
    lead to the same exception. *)
Lemma find_object_error_names_no_candidate :
  Pygit.find_object {[ "ab"%string := dir_cd ]} "ab"
    = Raise (ValueError "multiple objects (2) with prefix ab") /\
  Pygit.find_object {[ "ab"%string := dir_ef ]} "ab"
    = Raise (ValueError "multiple objects (2) with prefix ab") /\
  dom dir_cd ## dom dir_ef.
Proof.
  split; [vm_compute; reflexivity|]. split; [vm_compute; reflexivity|].
  apply (bool_decide_unpack _). vm_compute. exact I.
Qed.

Section FindObject.

Lemma matching_names (dir : gmap string bytes) (rest : string) :
  filter (fun name => String.prefix rest name = true) (map_to_list dir).*1
  ≡ₚ elements (matching dir rest).
Proof.
  apply NoDup_Permutation.
  - apply NoDup_filter, NoDup_fst_map_to_list.
  - apply NoDup_elements.
  - intros x. unfold matching.
    rewrite list_elem_of_filter, elem_of_elements, elem_of_filter, elem_of_dom.
    rewrite list_elem_of_fmap. split.
    + intros (Hp & (k, v) & -> & Hkv). split; [done|].
      apply elem_of_map_to_list in Hkv. by eexists.
    + intros (Hp & v & Hv). split; [done|]. exists (x, v). split; [done|].
      by apply elem_of_map_to_list.
Qed.

Lemma find_object_unique (objs : objdir) (sha1_prefix : string)
    (dir : gmap string bytes) (name : string) :
  (2 <= String.length sha1_prefix)%nat ->
  objs !! str_take 2 sha1_prefix = Some dir ->
  matching dir (str_drop 2 sha1_prefix) = {[ name ]} ->
  Pygit.find_object objs sha1_prefix = Ok (str_take 2 sha1_prefix, name).
Proof.
  intros Hlen Hdir Hm. unfold Pygit.find_object.
  replace (String.length sha1_prefix <? 2)%nat with false
    by (symmetry; apply Nat.ltb_ge; lia).
  rewrite Hdir. pose proof (matching_names dir (str_drop 2 sha1_prefix)) as Hp.
  rewrite Hm, elements_singleton in Hp.
  by apply Permutation_singleton_r in Hp as ->.
Qed.

End FindObject.

(** C6, amended. [find_object] rejects a prefix of fewer than two
    characters.  For a longer prefix whose two-character directory exists,
    it returns the file when exactly one name of the directory starts with
    the rest of the prefix, fails with "object ... not found" when none
    does, and fails with an error that gives the number of matching names
    and the prefix when two or more do. *)
Theorem find_object_cases (objs : objdir) (sha1_prefix : string) :
  ((String.length sha1_prefix < 2)%nat ->
     Pygit.find_object objs sha1_prefix
       = Raise (ValueError "hash prefix must be 2 or more characters")) /\
  (forall dir, (2 <= String.length sha1_prefix)%nat ->
     objs !! str_take 2 sha1_prefix = Some dir ->
     let m := matching dir (str_drop 2 sha1_prefix) in
     (forall name, m = {[ name ]} ->
        Pygit.find_object objs sha1_prefix = Ok (str_take 2 sha1_prefix, name)) /\
     (m = ∅ ->
        Pygit.find_object objs sha1_prefix
          = Raise (ValueError ("object " ++ sha1_prefix ++ " not found"))) /\
     ((2 <= size m)%nat ->
        Pygit.find_object objs sha1_prefix
          = Raise (ValueError ("multiple objects (" ++ str_of_nat (size m)
                               ++ ") with prefix " ++ sha1_prefix)))).
Proof.
  split.
  - intros Hlen. unfold Pygit.find_object.
    by apply Nat.ltb_lt in Hlen as ->.
  - intros dir Hlen Hdir m. unfold Pygit.find_object.
    replace (String.length sha1_prefix <? 2)%nat with false
      by (symmetry; apply Nat.ltb_ge; lia).
    rewrite Hdir. pose proof (matching_names dir (str_drop 2 sha1_prefix)) as Hp.
    fold m in Hp. split; [|split].
    + intros name Hm. rewrite Hm, elements_singleton in Hp.
      by apply Permutation_singleton_r in Hp as ->.
    + intros Hm. rewrite Hm, elements_empty in Hp.
      by apply Permutation_nil_r in Hp as ->.
    + intros Hsz.
      assert (length (filter (fun name => String.prefix (str_drop 2 sha1_prefix) name = true)
                        (map_to_list dir).*1) = size m) as Hl
        by (by rewrite Hp).
      rewrite <- Hl in Hsz |- *. clear Hl Hp.
      destruct (filter _ _) as [|a [|b l]]; simpl in *; [lia|lia|].
      reflexivity.
Qed.

Lemma find_object_cases_witness :
  Pygit.find_object {[ "ab"%string := dir_cd ]} "a"
    = Raise (ValueError "hash prefix must be 2 or more characters") /\
  Pygit.find_object {[ "ab"%string := dir_cd ]} "abc1" = Ok ("ab", "c1")%string /\
  Pygit.find_object {[ "ab"%string := dir_cd ]} "abd"
    = Raise (ValueError "object abd not found") /\
  Pygit.find_object {[ "ab"%string := dir_cd ]} "abc"
    = Raise (ValueError "multiple objects (2) with prefix abc").
Proof.
  pose proof (find_object_cases {[ "ab"%string := dir_cd ]}) as F.
  split; [apply (proj1 (F "a"%string)); vm_compute; lia|].
  split; [|split].
  - apply (proj2 (F "abc1"%string) dir_cd); [vm_compute; lia|reflexivity|].
    apply (bool_decide_unpack _). vm_compute. exact I.
  - apply (proj2 (F "abd"%string) dir_cd); [vm_compute; lia|reflexivity|].
    apply (bool_decide_unpack _). vm_compute. exact I.
  - apply (proj2 (F "abc"%string) dir_cd); [vm_compute; lia|reflexivity|].
    vm_compute. lia.
Defined.

(** ** The index *)

Section Index.

Lemma entry_len_lower (n : nat) : (64 <= (62 + n + 8) / 8 * 8)%nat.
Proof.
  pose proof (Nat.div_mod_eq (62 + n + 8) 8).
  pose proof (Nat.mod_upper_bound (62 + n + 8) 8 ltac:(lia)).
  lia.
Qed.

Lemma read_entry_advances (entry_data : bytes) (i : nat) e i' :
  Pygit.read_entry entry_data i = Ok (e, i') -> (i + 64 <= i')%nat.
Proof.
  unfold Pygit.read_entry.
  destruct (index_of x00 _) as [k|]; [|done].
  destruct (decode _); cbn [bind]; [|done].
  intros [= _ <-]. apply Nat.add_le_mono_l, entry_len_lower.
Qed.

(** The loop of [read_index] ends within the rounds it is given. *)
Lemma read_entries_total (fuel : nat) (entry_data : bytes) (i : nat)
    (entries : list Pygit.IndexEntry) :
  (length entry_data <= i + fuel)%nat ->
  Pygit.read_entries fuel entry_data i entries <> None.
Proof.
  revert i entries. induction fuel as [|fuel IH]; intros i entries Hlen; simpl.
  - destruct (i + 62 <? length entry_data)%nat eqn:E; [|done].
    apply Nat.ltb_lt in E. lia.
  - destruct (i + 62 <? length entry_data)%nat; [|done]. simpl.
    destruct (Pygit.read_entry entry_data i) as [[e i']|] eqn:E; [|done].
    apply read_entry_advances in E. apply IH. lia.
Qed.

Lemma read_index_checks_digest (data : bytes) (entries : list Pygit.IndexEntry) :
  Pygit.read_index (Some data) = Ok entries ->
  SHA1.digest (take (length data - 20) data) = drop (length data - 20) data.
Proof.
  unfold Pygit.read_index.
  destruct (bool_decide _) eqn:E; [|done].
  by apply bool_decide_eq_true in E.
Qed.

End Index.

(** C8. [read_index] succeeds only if the last 20 bytes are the SHA-1 of
    all the bytes before them.  In particular, when an index is read with
    success and one byte of its entry region (after the 12 bytes of the
    header, before the 20 bytes of the digest) is replaced by another, the
    read fails on the checksum, as long as the change does not produce
    another message of the same SHA-1. *)
Theorem read_index_checksum (data : bytes) (entries : list Pygit.IndexEntry) :
  Pygit.read_index (Some data) = Ok entries ->
  SHA1.digest (take (length data - 20) data) = drop (length data - 20) data /\
  forall (i : nat) (b : byte),
    (12 <= i < length data - 20)%nat ->
    data !! i <> Some b ->
    SHA1.digest (take (length data - 20) (<[i := b]> data))
      <> SHA1.digest (take (length data - 20) data) ->
    Pygit.read_index (Some (<[i := b]> data))
      = Raise (AssertionError "invalid index checksum").
Proof.
  intros Hok. pose proof (read_index_checks_digest _ _ Hok) as Hd.
  split; [done|]. intros i b Hi Hb Hne.
  unfold Pygit.read_index. rewrite length_insert.
  rewrite drop_insert_lt by lia. rewrite <- Hd.
  by rewrite bool_decide_eq_false_2.
Qed.

Lemma read_index_checksum_witness :
  SHA1.digest (take (length index_example - 20) index_example)
    = drop (length index_example - 20) index_example /\
  Pygit.read_index (Some (<[ 75%nat := x62 ]> index_example))
    = Raise (AssertionError "invalid index checksum").
Proof.
  assert (exists es, Pygit.read_index (Some index_example) = Ok es) as [es Hes]
    by (eexists; vm_compute; reflexivity).
  destruct (read_index_checksum index_example es Hes) as [H1 H2].
  split; [exact H1|].
  apply H2.
  - vm_compute. lia.
  - vm_compute. discriminate.
  - vm_compute. discriminate.
Defined.

(** ** The status of the working copy *)

Section Status.
Context {zlib : Zlib}.

Lemma str_le_lt_eq (a b : string) : str_le a b <-> a = b \/ String.ltb a b = true.
Proof.
  unfold str_le, String.leb, String.ltb.
  destruct (String.compare a b) eqn:E.
  - apply String.compare_eq_iff in E. naive_solver.
  - naive_solver.
  - split; [done|]. intros [->|?]; [|done].
    pose proof (String.compare_antisym b b) as Ha. rewrite E in Ha. done.
Qed.

Lemma str_ltb_trans (a b c : string) :
  String.ltb a b = true -> String.ltb b c = true -> String.ltb a c = true.
Proof.
  unfold String.ltb. intros Hab Hbc.
  destruct (String.compare a b) eqn:E1; try done.
  destruct (String.compare b c) eqn:E2; try done.
  apply OrderedTypeEx.String_as_OT.cmp_lt in E1, E2.
  pose proof (OrderedTypeEx.String_as_OT.lt_trans _ _ _ E1 E2) as E3.
  apply OrderedTypeEx.String_as_OT.cmp_lt in E3.
  unfold OrderedTypeEx.String_as_OT.cmp in E3. by rewrite E3.
Qed.

#[local] Instance str_le_total : Total str_le.
Proof. intros a b. apply String.leb_total. Qed.

#[local] Instance str_le_trans : Transitive str_le.
Proof.
  intros a b c. rewrite !str_le_lt_eq.
  intros [->|Hab] [->|Hbc]; eauto using str_ltb_trans.
Qed.

Lemma sorted_elem (s : gset string) (p : string) : p ∈ Pygit.sorted s <-> p ∈ s.
Proof.
  unfold Pygit.sorted. by rewrite merge_sort_Permutation, elem_of_elements.
Qed.

Lemma sorted_ascending (s : gset string) : ascending (Pygit.sorted s).
Proof.
  unfold Pygit.sorted.
  assert (NoDup (merge_sort str_le (elements s))) as Hnd
    by (rewrite merge_sort_Permutation; apply NoDup_elements).
  pose proof (StronglySorted_merge_sort str_le (elements s)) as Hs.
  revert Hnd Hs. generalize (merge_sort str_le (elements s)).
  induction l as [|a l IH]; intros Hnd Hs; [constructor|].
  apply NoDup_cons in Hnd as [Ha Hnd].
  apply StronglySorted_inv in Hs as [Hs Hall].
  constructor; [by apply IH|].
  apply Forall_forall. intros b Hb.
  rewrite Forall_forall in Hall.
  destruct (proj1 (str_le_lt_eq a b) (Hall b Hb)) as [->|]; [|done].
  done.
Qed.

Lemma dom_entries_by_path_from (entries : list Pygit.IndexEntry)
    (m : gmap string Pygit.IndexEntry) :
  dom (fold_left (fun m e => <[Pygit.path e := e]> m) entries m)
  = dom m ∪ list_to_set (Pygit.path <$> entries).
Proof.
  revert m. induction entries as [|e entries IH]; intros m; simpl.
  - set_solver.
  - rewrite IH, dom_insert_L. set_solver.
Qed.

Lemma dom_entries_by_path (entries : list Pygit.IndexEntry) :
  dom (Pygit.entries_by_path entries) = list_to_set (Pygit.path <$> entries).
Proof.
  unfold Pygit.entries_by_path. rewrite dom_entries_by_path_from. set_solver.
Qed.

Lemma changed_paths_ok es r by_path (ps : list string) :
  (forall p, p ∈ ps -> exists b, Pygit.is_changed es r by_path p = Ok b) ->
  exists s, Pygit.changed_paths es r by_path ps = Ok s /\
    forall p, p ∈ s <-> p ∈ ps /\ Pygit.is_changed es r by_path p = Ok true.
Proof.
  induction ps as [|q ps IH]; intros Hall; simpl.
  - exists ∅. split; [done|]. set_solver.
  - destruct (Hall q) as [b Hb]; [set_solver|].
    destruct IH as (s & Hs & Hin); [set_solver|].
    rewrite Hb, Hs. simpl. eexists. split; [done|].
    intros p. rewrite elem_of_cons. destruct b.
    + rewrite elem_of_union, elem_of_singleton, Hin. split.
      * intros [->|[? ?]]; (split; [by auto|done]).
      * intros [[->|?] ?]; auto.
    + rewrite Hin. split.
      * intros [? ?]. auto.
      * intros [[->|?] Hc]; [congruence|done].
Qed.

Lemma is_changed_spec es r by_path (p : string) (b : bool) :
  Pygit.is_changed es r by_path p = Ok b <->
  exists c e, Pygit.read_file es p = Ok c /\ by_path !! p = Some e /\
    b = negb (String.eqb (Pygit.hash_object c "blob" false r).1
                         (bytes_hex (Pygit.sha1 e))).
Proof.
  unfold Pygit.is_changed.
  destruct (Pygit.read_file es p) as [c|]; simpl; [|naive_solver].
  destruct (by_path !! p) as [e|]; naive_solver.
Qed.

End Status.

(** [get_status] in terms of its own walk: with [P] the paths gathered by
    the walk and [I] the paths of the index entries, the three lists are
    the changed paths of [P ∩ I], [P − I] and [I − P], each in strictly
    ascending order. *)
Lemma get_status_walk {zlib : Zlib} (es : list (string * Pygit.node))
    (index : option bytes) (r : Pygit.repo) (entries : list Pygit.IndexEntry) :
  let P : gset string := list_to_set (Pygit.walk es) in
  let I : gset string := list_to_set (Pygit.path <$> entries) in
  let by_path := Pygit.entries_by_path entries in
  Pygit.read_index index = Ok entries ->
  (forall p, p ∈ P ∩ I -> exists c, Pygit.read_file es p = Ok c) ->
  exists changed new deleted,
    Pygit.get_status es index r = Ok (changed, new, deleted) /\
    (forall p, p ∈ changed <->
       p ∈ P ∩ I /\
       exists c e, Pygit.read_file es p = Ok c /\ by_path !! p = Some e /\
         (Pygit.hash_object c "blob" false r).1 <> bytes_hex (Pygit.sha1 e) /\
         (Pygit.hash_object c "blob" false r).2 = r) /\
    (forall p, p ∈ new <-> p ∈ P ∖ I) /\
    (forall p, p ∈ deleted <-> p ∈ I ∖ P) /\
    ascending changed /\ ascending new /\ ascending deleted.
Proof.
  intros P I by_path Hidx Hread.
  unfold Pygit.get_status. rewrite Hidx. cbn [bind].
  rewrite dom_entries_by_path. fold by_path P I.
  destruct (changed_paths_ok es r by_path (elements (P ∩ I))) as (s & Hs & Hin).
  { intros p Hp. apply elem_of_elements in Hp.
    destruct (Hread p Hp) as [c Hc].
    assert (p ∈ dom by_path) as [e He]%elem_of_dom
      by (unfold by_path; rewrite dom_entries_by_path; set_solver).
    eexists. apply is_changed_spec. by exists c, e. }
  rewrite Hs. cbn [bind]. eexists _, _, _. split; [reflexivity|].
  split; [|split; [|split]]; try (split; [|split]); try apply sorted_ascending.
  - intros p. rewrite sorted_elem, Hin, elem_of_elements, is_changed_spec.
    split.
    + intros (Hp & c & e & Hc & He & Hb). split; [done|]. exists c, e.
      repeat split; try done.
      intros E. rewrite E, String.eqb_refl in Hb. done.
    + intros (Hp & c & e & Hc & He & Hne & _). split; [done|]. exists c, e.
      repeat split; try done.
      symmetry. apply negb_true_iff, String.eqb_neq. done.
  - intros p. by rewrite sorted_elem.
  - intros p. by rewrite sorted_elem.
Qed.

Section Walk.

Lemma node_all (Q : Pygit.node -> Prop) :
  (forall c, Q (Pygit.File c)) ->
  (forall es, Forall (fun e => Q e.2) es -> Q (Pygit.Dir es)) ->
  forall n, Q n.
Proof.
  intros Hf Hd. fix IH 1. intros [c|es]; [apply Hf|].
  apply Hd. induction es as [|[name n] es IHes]; constructor; [apply IH|apply IHes].
Qed.

Lemma str_app_assoc (a b c : string) : ((a ++ b) ++ c = a ++ (b ++ c))%string.
Proof.
  induction a as [|x a IH]; [done|].
  change (String x ((a ++ b) ++ c) = String x (a ++ (b ++ c)))%string.
  by rewrite IH.
Qed.

Lemma join_path (cs : list string) (root : string) :
  cs <> [] -> fold_left Pygit.join cs root = (root ++ "/" ++ path_of cs)%string.
Proof.
  revert root. induction cs as [|c cs IH]; intros root Hne; [done|].
  cbn [fold_left]. destruct cs as [|c' cs]; [done|].
  rewrite IH by done. unfold Pygit.join. cbn [path_of].
  rewrite !str_app_assoc. reflexivity.
Qed.

Lemma root_of_join (ds : list string) (name : string) :
  Pygit.join (root_of ds) name = root_of (ds ++ [name]).
Proof. unfold root_of. by rewrite fold_left_app. Qed.

Lemma str_drop_two (c d : ascii) (t : string) : str_drop 2 (String c (String d t)) = t.
Proof.
  unfold str_drop. cbn [String.length substring Nat.sub].
  rewrite Nat.sub_0_r. apply substring_all.
Qed.

(** The path recorded for the file [name] of the directory reached by
    [ds]: the names joined by "/", backslashes replaced. *)
Lemma status_path_root (ds : list string) (name : string) :
  Pygit.status_path (root_of ds) name = str_replace "\" "/" (path_of (ds ++ [name])).
Proof.
  unfold Pygit.status_path. cbv zeta. rewrite root_of_join. unfold root_of.
  rewrite join_path by (by destruct ds).
  change ("." ++ "/" ++ path_of (ds ++ [name]))%string
    with (String "." (String "/" (path_of (ds ++ [name])))).
  change (str_replace "\" "/" (String "." (String "/" (path_of (ds ++ [name])))))
    with (String "." (String "/" (str_replace "\" "/" (path_of (ds ++ [name]))))).
  assert (forall x, String.prefix "./" (String "." (String "/" x)) = true) as ->
    by (by intros []).
  apply str_drop_two.
Qed.

Lemma walk_node_dir (root name : string) (es : list (string * Pygit.node)) :
  Pygit.walk_node root name (Pygit.Dir es)
  = if decide (name = ".git"%string) then []
    else flat_map (fun e => Pygit.walk_node (Pygit.join root name) e.1 e.2) es.
Proof.
  cbn [Pygit.walk_node]. destruct (decide (name = ".git"%string)); [done|].
  induction es as [|[name' n'] es IH]; [done|].
  cbn [flat_map fst snd]. by rewrite <- IH.
Qed.

Lemma elem_of_flat_map {A B} (f : A -> list B) (l : list A) (y : B) :
  y ∈ flat_map f l <-> exists x, x ∈ l /\ y ∈ f x.
Proof.
  rewrite list_elem_of_In, in_flat_map. split.
  - intros (x & Hx & Hy). exists x. by rewrite !list_elem_of_In.
  - intros (x & Hx & Hy). exists x. by rewrite <- !list_elem_of_In.
Qed.

(** What the walk gathers below a node: the files it leads to through
    directories of which none is called [.git]. *)
Lemma walk_node_spec (n : Pygit.node) (ds : list string) (name p : string) :
  p ∈ Pygit.walk_node (root_of ds) name n <->
  exists cs c,
    leads_to n cs c /\
    (".git"%string ∉ removelast (name :: cs)) /\
    p = str_replace "\" "/" (path_of (ds ++ name :: cs)).
Proof.
  revert ds name p. induction n as [c|es IH] using node_all; intros ds name p.
  - cbn [Pygit.walk_node]. rewrite list_elem_of_singleton, status_path_root. split.
    + intros ->. exists [], c. split; [constructor|]. split; [|done].
      cbn [removelast]. apply not_elem_of_nil.
    + intros (cs & c' & Hl & _ & ->). by inversion Hl.
  - rewrite walk_node_dir. destruct (decide (name = ".git"%string)) as [->|Hname].
    + split; [by intros ?%elem_of_nil|].
      intros (cs & c & Hl & Hno & _). inversion Hl; subst.
      destruct Hno. cbn [removelast]. by left.
    + rewrite elem_of_flat_map. split.
      * intros ([name' n'] & Hin & Hp). cbn [fst snd] in Hp.
        rewrite root_of_join in Hp.
        rewrite Forall_forall in IH. apply (IH _ Hin) in Hp as (cs & c & Hl & Hno & ->).
        exists (name' :: cs), c. split; [by econstructor|].
        split; [|by rewrite <- app_assoc].
        change (removelast (name :: name' :: cs)) with (name :: removelast (name' :: cs)).
        apply not_elem_of_cons. by split.
      * intros (cs & c & Hl & Hno & ->). inversion Hl as [|es' name' n' cs' c' Hin Hl']; subst.
        exists (name', n'). split; [done|]. cbn [fst snd]. rewrite root_of_join.
        rewrite Forall_forall in IH. apply (IH _ Hin).
        exists cs', c. split; [done|]. split; [|by rewrite <- app_assoc].
        change (removelast (name :: name' :: cs')) with (name :: removelast (name' :: cs')) in Hno.
        by apply not_elem_of_cons in Hno as [_ ?].
Qed.

(** The walk of [get_status] gathers exactly the paths of the regular files
    that are inside no directory called [.git]. *)
Lemma walk_spec (es : list (string * Pygit.node)) (p : string) :
  p ∈ Pygit.walk es <-> status_paths es p.
Proof.
  unfold Pygit.walk, status_paths. rewrite elem_of_flat_map. split.
  - intros ([name n] & Hin & Hp). cbn [fst snd] in Hp.
    apply (walk_node_spec n [] name p) in Hp as (cs & c & Hl & Hno & ->).
    exists (name :: cs), c. split; [by econstructor|]. by split.
  - intros (cs & c & Hl & Hno & ->). inversion Hl as [|es' name n cs' c' Hin Hl']; subst.
    exists (name, n). split; [done|]. cbn [fst snd].
    apply (walk_node_spec n [] name). by exists cs', c.
Qed.

End Walk.

(** C9, counterexample. A regular file below a directory called [.git]
    that is not the metadata directory of the working copy (here
    [sub/.git/x]) is a path of the working copy, and the index is empty,
    yet [get_status] does not list it as new: the walk leaves out every
    directory called [.git], at whatever depth. *)
Lemma get_status_skips_nested_git :
  worktree_paths nested_tree "sub/.git/x" /\
  Pygit.read_index None = Ok [] /\
  Pygit.get_status nested_tree None (Pygit.Repo ∅ []) = Ok ([], [], []).
Proof.
  split; [|split].
  - exists ["sub"; ".git"; "x"]%string, hello. split; [|split].
    + apply (leads_dir _ _ (Pygit.Dir [(".git"%string,
                                        Pygit.Dir [("x"%string, Pygit.File hello)])]));
        [by left|].
      apply (leads_dir _ _ (Pygit.Dir [("x"%string, Pygit.File hello)])); [by left|].
      apply (leads_dir _ _ (Pygit.File hello)); [by left|]. constructor.
    + by intros cs' [=].
    + reflexivity.
  - reflexivity.
  - vm_compute. reflexivity.
Qed.

(** C9, amended. When the index is read with success and the files that
    are both in the working copy and in the index can be read,
    [get_status] returns three lists.  With [P] the paths of the regular
    files of the working copy that are inside no directory called [.git],
    at whatever depth (their names joined by "/", backslashes replaced by
    "/"), and [I] the paths of the index entries: [changed] holds the paths
    of [P ∩ I] whose content has a blob digest, computed without writing,
    that differs from the digest of the index entry; [new] holds [P − I];
    [deleted] holds [I − P]; and each list is in strictly ascending
    order. *)
Theorem get_status_spec {zlib : Zlib} (es : list (string * Pygit.node))
    (index : option bytes) (r : Pygit.repo) (entries : list Pygit.IndexEntry) :
  let I : gset string := list_to_set (Pygit.path <$> entries) in
  let by_path := Pygit.entries_by_path entries in
  Pygit.read_index index = Ok entries ->
  (forall p, status_paths es p -> p ∈ I -> exists c, Pygit.read_file es p = Ok c) ->
  exists changed new deleted,
    Pygit.get_status es index r = Ok (changed, new, deleted) /\
    (forall p, p ∈ changed <->
       status_paths es p /\ p ∈ I /\
       exists c e, Pygit.read_file es p = Ok c /\ by_path !! p = Some e /\
         (Pygit.hash_object c "blob" false r).1 <> bytes_hex (Pygit.sha1 e) /\
         (Pygit.hash_object c "blob" false r).2 = r) /\
    (forall p, p ∈ new <-> status_paths es p /\ p ∉ I) /\
    (forall p, p ∈ deleted <-> p ∈ I /\ ~ status_paths es p) /\
    ascending changed /\ ascending new /\ ascending deleted.
Proof.
  intros I by_path Hidx Hread.
  assert (forall p, p ∈ (list_to_set (Pygit.walk es) : gset string) <-> status_paths es p)
    as HP by (intros p; rewrite elem_of_list_to_set; apply walk_spec).
  destruct (get_status_walk es index r entries Hidx)
    as (changed & new & deleted & Hst & Hc & Hn & Hd & Hasc).
  { intros p [Hp Hi]%elem_of_intersection. apply Hread; [by apply HP|done]. }
  exists changed, new, deleted. split; [done|].
  split; [|split; [|split; [|done]]]; intros p.
  - rewrite Hc, elem_of_intersection, HP. fold I by_path. naive_solver.
  - rewrite Hn, elem_of_difference, HP. by fold I.
  - rewrite Hd, elem_of_difference, HP. by fold I.
Qed.

Example status_scenario :
  Pygit.get_status status_tree (Some status_index) (Pygit.Repo ∅ [])
  = Ok (["a"], ["b"; "sub/d"], ["c"])%string.
Proof. vm_compute. reflexivity. Qed.

Lemma get_status_spec_witness :
  exists changed new deleted,
    Pygit.get_status status_tree (Some status_index) (Pygit.Repo ∅ [])
      = Ok (changed, new, deleted) /\
    (forall p, p ∈ new <->
       status_paths status_tree p /\
       p ∉ (list_to_set (Pygit.path <$> status_entries) : gset string)) /\
    (forall p, p ∈ deleted <->
       p ∈ (list_to_set (Pygit.path <$> status_entries) : gset string) /\
       ~ status_paths status_tree p) /\
    ascending changed /\ ascending new /\ ascending deleted.
Proof.
  destruct (get_status_spec status_tree (Some status_index) (Pygit.Repo ∅ [])
              status_entries) as (c & n & d & H1 & _ & H3 & H4 & H5).
  - vm_compute. reflexivity.
  - intros p Hp _. apply walk_spec in Hp. vm_compute in Hp.
    repeat (apply elem_of_cons in Hp as [->|Hp];
            [eexists; vm_compute; reflexivity|]).
    by apply elem_of_nil in Hp.
  - exists c, n, d. split; [exact H1|]. split; [exact H3|]. split; [exact H4|exact H5].
Defined.

(** ** The object store: reading back what was written *)

Section ReadBack.
Context {zlib : Zlib}.

Lemma all_chars_app P (a b : string) :
  all_chars P (a ++ b) = all_chars P a && all_chars P b.
Proof. induction a as [|c a IH]; simpl; [done|]. by rewrite IH, andb_assoc. Qed.

Lemma all_chars_impl (P Q : ascii -> bool) (s : string) :
  (forall c, P c = true -> Q c = true) -> all_chars P s = true -> all_chars Q s = true.
Proof.
  intros HPQ. induction s as [|c s IH]; simpl; [done|].
  intros [Hc Hs]%andb_true_iff. rewrite (HPQ _ Hc). by apply IH.
Qed.

Lemma encode_app (a b : string) : encode (a ++ b) = encode a ++ encode b.
Proof.
  unfold encode, list_byte_of_string.
  induction a as [|c a IH]; simpl; [done|]. by rewrite IH.
Qed.

Lemma to_N_byte_of_ascii (c : ascii) : Byte.to_N (byte_of_ascii c) = N_of_ascii c.
Proof. apply Byte.to_of_N. symmetry. apply byte_of_ascii_via_N. Qed.

Lemma index_of_header (s : string) (rest : bytes) :
  all_chars header_char s = true ->
  index_of x00 (encode s ++ x00 :: rest) = Some (length (encode s)).
Proof.
  induction s as [|c s IH]; [done|].
  intros [Hc Hs]%andb_true_iff. change (encode (String c s)) with (byte_of_ascii c :: encode s).
  simpl. destruct (decide (byte_of_ascii c = x00)) as [E|_].
  - apply (f_equal Byte.to_N) in E. rewrite to_N_byte_of_ascii in E.
    unfold header_char in Hc. rewrite E in Hc. done.
  - by rewrite IH.
Qed.

Lemma utf8_valid_header (s : string) :
  all_chars header_char s = true -> utf8_valid 0 128 191 (encode s) = true.
Proof.
  induction s as [|c s IH]; [done|].
  intros [Hc Hs]%andb_true_iff. change (encode (String c s)) with (byte_of_ascii c :: encode s).
  cbn [utf8_valid]. rewrite to_N_byte_of_ascii.
  unfold header_char in Hc. apply andb_true_iff in Hc as [_ Hc%N.ltb_lt].
  replace (Z.of_N (N_of_ascii c) <? 128) with true by (symmetry; apply Z.ltb_lt; lia).
  by apply IH.
Qed.

Lemma decode_header (s : string) :
  all_chars header_char s = true -> decode (encode s) = Ok s.
Proof.
  intros Hs. unfold decode. rewrite utf8_valid_header by done.
  unfold encode. by rewrite string_of_list_byte_of_string.
Qed.

Lemma split_ws_word (t s : string) (cur : list ascii) :
  all_chars (fun c => negb (is_space c)) t = true ->
  split_ws_aux (t ++ s) cur = split_ws_aux s (rev (list_ascii_of_string t) ++ cur).
Proof.
  revert cur. induction t as [|c t IH]; intros cur; [done|].
  intros [Hc Hs]%andb_true_iff. apply negb_true_iff in Hc.
  change (String c t +:+ s) with (String c (t +:+ s)).
  cbn [split_ws_aux]. rewrite Hc, IH by done.
  simpl. by rewrite <- app_assoc.
Qed.

Lemma list_ascii_nonempty (t : string) :
  t <> ""%string -> rev (list_ascii_of_string t) <> [].
Proof.
  destruct t as [|c t]; [done|]. simpl. intros _ E.
  by apply app_eq_nil in E as [_ ?].
Qed.

Lemma str_app_nil_r (s : string) : (s ++ "")%string = s.
Proof.
  induction s as [|c s IH]; [done|].
  change (String c s +:+ "") with (String c (s +:+ "")). by rewrite IH.
Qed.

Lemma split_ws_two (t d : string) :
  t <> ""%string -> d <> ""%string ->
  all_chars (fun c => negb (is_space c)) t = true ->
  all_chars (fun c => negb (is_space c)) d = true ->
  split_ws (t ++ " " ++ d) = [t; d].
Proof.
  intros Ht Hd Hts Hds. unfold split_ws.
  rewrite split_ws_word by done. rewrite app_nil_r.
  change (" " +:+ d) with (String " " d).
  cbn [split_ws_aux]. change (is_space " ") with true. cbn match.
  pose proof (list_ascii_nonempty t Ht) as Hn.
  destruct (rev (list_ascii_of_string t)) as [|a l] eqn:E; [done|].
  rewrite <- E, rev_involutive, string_of_list_ascii_of_string.
  rewrite <- (str_app_nil_r d) at 1.
  rewrite split_ws_word by done. rewrite app_nil_r. simpl.
  pose proof (list_ascii_nonempty d Hd) as Hn'.
  destruct (rev (list_ascii_of_string d)) as [|a' l'] eqn:E'; [done|].
  by rewrite <- E', rev_involutive, string_of_list_ascii_of_string.
Qed.

Lemma digit_not_special (c : ascii) :
  is_digit c = true ->
  is_space c = false /\ Ascii.eqb c "-" = false /\ Ascii.eqb c "+" = false /\
  header_char c = true.
Proof. destruct c as [[] [] [] [] [] [] [] []]; vm_compute; try done. Qed.

Lemma lstrip_digits (s : string) : all_chars is_digit s = true -> lstrip s = s.
Proof.
  destruct s as [|c s]; [done|]. intros [Hc _]%andb_true_iff.
  simpl. by destruct (digit_not_special c Hc) as (-> & _).
Qed.

Lemma rstrip_digits (s : string) : all_chars is_digit s = true -> rstrip s = s.
Proof.
  induction s as [|c s IH]; [done|]. intros [Hc Hs]%andb_true_iff.
  simpl. rewrite IH by done. destruct s; [|done].
  by destruct (digit_not_special c Hc) as (-> & _).
Qed.

Lemma py_int_digits (s : string) (n : Z) :
  all_chars is_digit s = true ->
  digits_value s false 0 = Some n ->
  py_int s = Ok n.
Proof.
  intros Hs Hn. unfold py_int.
  rewrite lstrip_digits, rstrip_digits by done.
  destruct s as [|c s]; [done|].
  apply andb_true_iff in Hs as [Hc _].
  destruct (digit_not_special c Hc) as (_ & -> & -> & _).
  by rewrite Hn.
Qed.

Lemma digits_of_uint (d : Decimal.uint) :
  all_chars is_digit (NilEmpty.string_of_uint d) = true.
Proof. induction d; simpl; done. Qed.

Lemma digits_value_uint (d : Decimal.uint) (b : bool) (acc : nat) :
  b = true \/ d <> Decimal.Nil ->
  digits_value (NilEmpty.string_of_uint d) b (Z.of_nat acc)
  = Some (Z.of_nat (Nat.of_uint_acc d acc)).
Proof.
  revert b acc.
  induction d as [|d IH|d IH|d IH|d IH|d IH|d IH|d IH|d IH|d IH|d IH];
    intros b acc Hb;
    [ by destruct Hb as [->|] | .. ];
    cbn [NilEmpty.string_of_uint Nat.of_uint_acc digits_value];
    match goal with
    | |- context [is_digit ?c] =>
        change (is_digit c) with true; cbn match;
        let v := eval vm_compute in (Z.of_N (N_of_ascii c)) in
        change (Z.of_N (N_of_ascii c)) with v
    end;
    match goal with
    | |- digits_value _ true ?v = Some (Z.of_nat (Nat.of_uint_acc _ ?a)) =>
        replace v with (Z.of_nat a)
          by (rewrite Nat.tail_mul_spec; lia)
    end;
    apply IH; by left.
Qed.

Lemma to_uint_not_nil (n : nat) : Nat.to_uint n <> Decimal.Nil.
Proof.
  pose proof (DecimalNat.Unsigned.to_of (Nat.to_uint n)) as Hn.
  rewrite DecimalNat.Unsigned.of_to in Hn. rewrite Hn.
  apply DecimalFacts.unorm_nonnil.
Qed.

Lemma str_of_nat_digits (n : nat) :
  all_chars is_digit (str_of_nat n) = true /\ str_of_nat n <> ""%string.
Proof.
  split; [apply digits_of_uint|]. unfold str_of_nat.
  pose proof (to_uint_not_nil n). by destruct (Nat.to_uint n).
Qed.

Lemma py_int_str_of_nat (n : nat) : py_int (str_of_nat n) = Ok (Z.of_nat n).
Proof.
  apply py_int_digits; [apply str_of_nat_digits|].
  unfold str_of_nat. change 0 with (Z.of_nat 0).
  rewrite digits_value_uint by (right; apply to_uint_not_nil).
  change (Nat.of_uint_acc (Nat.to_uint n) 0) with (Nat.of_uint (Nat.to_uint n)).
  by rewrite DecimalNat.Unsigned.of_to.
Qed.

Lemma digest_length (msg : bytes) : length (SHA1.digest msg) = 20%nat.
Proof.
  unfold SHA1.digest.
  destruct (SHA1.blocks _ _ _) as [[[[h0 h1] h2] h3] h4]. reflexivity.
Qed.

Lemma bytes_hex_length (b : bytes) : String.length (bytes_hex b) = (2 * length b)%nat.
Proof. induction b as [|c b IH]; [done|]. cbn [bytes_hex String.length length]. lia. Qed.

Lemma hexdigest_length (msg : bytes) : String.length (SHA1.hexdigest msg) = 40%nat.
Proof. unfold SHA1.hexdigest. by rewrite bytes_hex_length, digest_length. Qed.

Lemma str_prefix_refl (s : string) : String.prefix s s = true.
Proof.
  apply String.prefix_correct. induction s as [|c s IH]; [done|].
  simpl. by rewrite IH.
Qed.

Lemma tag_header (t : string) (n : nat) :
  is_tag t = true ->
  t <> ""%string /\
  all_chars (fun c => negb (is_space c)) t = true /\
  all_chars (fun c => negb (is_space c)) (str_of_nat n) = true /\
  all_chars header_char (t ++ " " ++ str_of_nat n) = true.
Proof.
  unfold is_tag. intros [Hne Ht]%andb_true_iff.
  apply negb_true_iff, String.eqb_neq in Hne.
  destruct (str_of_nat_digits n) as [Hd _].
  split; [done|]. split; [|split].
  - eapply all_chars_impl; [|exact Ht]. by intros c [_ ?]%andb_true_iff.
  - eapply all_chars_impl; [|exact Hd].
    intros c Hc. by destruct (digit_not_special c Hc) as (-> & _).
  - rewrite !all_chars_app. apply andb_true_iff. split; [|apply andb_true_iff; split].
    + eapply all_chars_impl; [|exact Ht]. by intros c [? _]%andb_true_iff.
    + reflexivity.
    + eapply all_chars_impl; [|exact Hd].
      intros c Hc. by destruct (digit_not_special c Hc) as (_ & _ & _ & ->).
Qed.

(** An object stored whole under its own address, with no other name of
    the directory starting with its file name, is read back as it was
    given. *)
Lemma read_object_stored (objs : objdir) (t : string) (data : bytes)
    (dir : gmap string bytes) :
  let sha := SHA1.hexdigest (full_data t data) in
  is_tag t = true ->
  objs !! str_take 2 sha = Some dir ->
  dir !! str_drop 2 sha = Some (compress (full_data t data)) ->
  matching dir (str_drop 2 sha) = {[ str_drop 2 sha ]} ->
  Pygit.read_object objs sha = Ok (t, data).
Proof.
  intros sha Ht Hdir Hfile Hm.
  destruct (tag_header t (length data) Ht) as (Hne & Hts & Hds & Hh).
  unfold Pygit.read_object.
  rewrite (find_object_unique objs sha dir (str_drop 2 sha))
    by (try done; unfold sha; rewrite hexdigest_length; lia).
  cbn [bind]. rewrite Hdir. cbn [mbind option_bind]. rewrite Hfile.
  rewrite decompress_compress. unfold full_data.
  change ([x00] ++ data) with (x00 :: data).
  rewrite index_of_header by done.
  rewrite take_app_length, decode_header by done. cbn [bind].
  rewrite split_ws_two by (try done; apply str_of_nat_digits).
  rewrite py_int_str_of_nat. cbn [bind].
  replace (drop _ _) with data.
  - by rewrite Z.eqb_refl.
  - rewrite (cons_middle x00), app_assoc.
    rewrite drop_app_length'; [done|]. rewrite length_app. simpl. lia.
Qed.

Lemma matching_only (dir : gmap string bytes) (n : string) :
  is_Some (dir !! n) ->
  (forall name, is_Some (dir !! name) -> String.prefix n name = true -> name = n) ->
  matching dir n = {[ n ]}.
Proof.
  intros Hn Hu. apply set_eq. intros x. unfold matching.
  rewrite elem_of_filter, elem_of_dom, elem_of_singleton. split.
  - intros [Hp Hx]. by apply Hu.
  - intros ->. split; [apply str_prefix_refl|done].
Qed.

(** What [hash_object] leaves in the object directory reads back, when the
    address was free or already held this object and no other file name of
    the directory starts with the 38 characters of the address. *)
Lemma read_after_hash (t : string) (data : bytes) (r : Pygit.repo) :
  let sha := (Pygit.hash_object data t true r).1 in
  let r' := (Pygit.hash_object data t true r).2 in
  is_tag t = true ->
  (forall dir content,
     Pygit.objects r !! str_take 2 sha = Some dir ->
     dir !! str_drop 2 sha = Some content ->
     content = compress (full_data t data)) ->
  (forall dir name,
     Pygit.objects r !! str_take 2 sha = Some dir ->
     is_Some (dir !! name) ->
     String.prefix (str_drop 2 sha) name = true -> name = str_drop 2 sha) ->
  Pygit.read_object (Pygit.objects r') sha = Ok (t, data).
Proof.
  intros sha r' Ht Hsame Honly. subst sha r'.
  unfold Pygit.hash_object in *. cbv zeta in *.
  fold (full_data t data) in *. cbn [fst] in *.
  set (sha := SHA1.hexdigest (full_data t data)) in *.
  destruct (Pygit.exists_object r _ _) eqn:E; cbn [snd].
  - unfold Pygit.exists_object in E.
    destruct (Pygit.objects r !! str_take 2 sha) as [dir|] eqn:Hdir; [|done].
    apply bool_decide_eq_true in E. destruct E as [content Hc].
    apply (read_object_stored _ _ _ dir); [done|done| |].
    + by rewrite <- (Hsame dir content Hdir Hc).
    + apply matching_only; [by eexists|]. intros name. by apply Honly.
  - unfold Pygit.write_file. cbn [Pygit.objects].
    apply (read_object_stored _ _ _
             (<[str_drop 2 sha := compress (full_data t data)]>
                (default ∅ (Pygit.objects r !! str_take 2 sha))));
      [done|by rewrite lookup_insert_eq|by rewrite lookup_insert_eq|].
    apply matching_only; [by rewrite lookup_insert_eq|].
    intros name [c Hc] Hp.
    destruct (decide (name = str_drop 2 sha)) as [|Hne]; [done|].
    rewrite lookup_insert_ne in Hc by done.
    destruct (Pygit.objects r !! str_take 2 sha) as [dir|] eqn:Hdir; [|done].
    apply (Honly dir); [done|by eexists|done].
Qed.

End ReadBack.

(** C2. For each of the types blob, tree, commit and tag and every payload,
    what [hash_object] writes is read back by [read_object], under the full
    digest, as the same type and the same bytes.  The object directory is
    assumed sound at the address: if a file is already there it holds this
    object (no other content has the same SHA-1), and no other file name of
    the directory starts with the 38 characters of the address. *)
Theorem read_after_write {zlib : Zlib} (t : string) (data : bytes) (r : Pygit.repo) :
  let sha := (Pygit.hash_object data t true r).1 in
  let r' := (Pygit.hash_object data t true r).2 in
  t ∈ ["blob"; "tree"; "commit"; "tag"]%string ->
  (forall dir content,
     Pygit.objects r !! str_take 2 sha = Some dir ->
     dir !! str_drop 2 sha = Some content ->
     content = compress (full_data t data)) ->
  (forall dir name,
     Pygit.objects r !! str_take 2 sha = Some dir ->
     is_Some (dir !! name) ->
     String.prefix (str_drop 2 sha) name = true -> name = str_drop 2 sha) ->
  Pygit.read_object (Pygit.objects r') sha = Ok (t, data).
Proof.
  intros sha r' Ht. apply read_after_hash.
  repeat (apply elem_of_cons in Ht as [->|Ht]; [reflexivity|]).
  by apply elem_of_nil in Ht.
Qed.

Lemma read_after_write_witness :
  Pygit.read_object
    (Pygit.objects (Pygit.hash_object hello "blob" true (Pygit.Repo ∅ [])).2)
    (Pygit.hash_object hello "blob" true (Pygit.Repo ∅ [])).1
  = Ok ("blob"%string, hello).
Proof.
  apply (read_after_write "blob" hello (Pygit.Repo ∅ [])).
  - set_solver.
  - intros dir content Hdir. cbn [Pygit.objects] in Hdir.
    by rewrite lookup_empty in Hdir.
  - intros dir name Hdir. cbn [Pygit.objects] in Hdir.
    by rewrite lookup_empty in Hdir.
Defined.

(** ** Objects of an unknown type *)

(** C5, as stated, fails for [read_object]: an object stored under the
    type [foo] is read back as the pair of [foo] and its payload. *)
Lemma read_object_returns_unknown_type :
  Pygit.read_object
    (Pygit.objects (Pygit.hash_object hello "foo" true (Pygit.Repo ∅ [])).2)
    (Pygit.hash_object hello "foo" true (Pygit.Repo ∅ [])).1
  = Ok ("foo"%string, hello).
Proof. vm_compute. reflexivity. Qed.

(** C5, amended. [object_read] never returns an object for a stored header
    whose type tag is not one of blob, tree, commit and tag: it raises, and
    when the length of the header is right and the tag is ASCII text, the
    exception is "Unknown type" with the tag and the name of the object.
    [read_object] makes no such test: whatever the tag, it returns the
    payload that [hash_object] stored under it. *)
Theorem object_read_unknown_type {zlib : Zlib} (depth : nat) (objs : objdir)
    (sha : string) (dir : gmap string bytes) (content raw : bytes) :
  let x := find raw SP 0 in
  let y := find raw NUL x in
  let tag := slice raw 0 x in
  objs !! str_take 2 sha = Some dir ->
  dir !! str_drop 2 sha = Some content ->
  decompress content = Some raw ->
  tag ∉ known_tags ->
  (exists e, Wyag.object_read depth objs sha = Some (Raise e)) /\
  (forall text t,
     str_drop 2 sha <> ""%string ->
     decode_ascii (slice raw x y) = Ok text ->
     py_int text = Ok (Z.of_nat (length raw) - y - 1) ->
     decode_ascii tag = Ok t ->
     Wyag.object_read depth objs sha
       = Some (Raise (Exception ("Unknown type " ++ t ++ " for object " ++ sha)))) /\
  (forall t data,
     is_tag t = true ->
     Pygit.read_object
       (Pygit.objects (Pygit.hash_object data t true (Pygit.Repo ∅ [])).2)
       (Pygit.hash_object data t true (Pygit.Repo ∅ [])).1
     = Ok (t, data)).
Proof.
  intros x y tag Hdir Hfile Hraw Htag.
  assert (tag <> encode "commit" /\ tag <> encode "tree" /\
          tag <> encode "tag" /\ tag <> encode "blob") as (H1 & H2 & H3 & H4).
  { unfold known_tags in Htag. set_solver. }
  unfold Wyag.object_read. rewrite Hdir, Hfile, Hraw. cbv zeta. fold x y tag.
  split; [|split].
  - destruct (decide (sha = ""%string)); [by eexists|].
    destruct (decide (str_drop 2 sha = ""%string)); [by eexists|].
    destruct (decode_ascii (slice raw x y)) as [text|]; cbn [bind]; [|by eexists].
    destruct (py_int text) as [size|]; [|by eexists].
    destruct (negb _); [by eexists|].
    rewrite !decide_False by done.
    destruct (decode_ascii tag); by eexists.
  - intros text t Hne Htext Hsize Ht.
    rewrite decide_False by (by intros ->).
    rewrite decide_False by done. rewrite Htext. cbn [bind]. rewrite Hsize.
    rewrite Z.eqb_refl. cbn [negb].
    rewrite !decide_False by done. by rewrite Ht.
  - intros t data Ht. apply read_after_hash; [done| |].
    + intros d c Hd. cbn [Pygit.objects] in Hd. by rewrite lookup_empty in Hd.
    + intros d c Hd. cbn [Pygit.objects] in Hd. by rewrite lookup_empty in Hd.
Qed.

Lemma object_read_unknown_type_witness :
  Wyag.object_read 10 objs_foo "cdb46ef5bd618f6276ba2a1228afc92c9c2e65fa"
    = Some (Raise (Exception
        "Unknown type foo for object cdb46ef5bd618f6276ba2a1228afc92c9c2e65fa")) /\
  Pygit.read_object
    (Pygit.objects (Pygit.hash_object hello "bar" true (Pygit.Repo ∅ [])).2)
    (Pygit.hash_object hello "bar" true (Pygit.Repo ∅ [])).1
  = Ok ("bar"%string, hello).
Proof.
  pose proof (object_read_unknown_type 10 objs_foo
    "cdb46ef5bd618f6276ba2a1228afc92c9c2e65fa"
    {[ "b46ef5bd618f6276ba2a1228afc92c9c2e65fa"%string :=
         encode "foo 5" ++ [NUL] ++ hello ]}
    (encode "foo 5" ++ [NUL] ++ hello) (encode "foo 5" ++ [NUL] ++ hello)
    eq_refl eq_refl eq_refl) as T.
  destruct T as (_ & T2 & T3).
  - vm_compute. intros Hin.
    repeat (apply elem_of_cons in Hin as [Hin|Hin]; [discriminate|]).
    by apply elem_of_nil in Hin.
  - split.
    + apply (T2 " 5"%string "foo"%string); [vm_compute; discriminate|reflexivity..].
    + apply (T3 "bar"%string hello). reflexivity.
Defined.

(** ** The KVLM codec: the round trip *)

(** C7, as stated, fails: the mapping [kvlm_single], whose key [parent]
    holds a list of one value, is serialized, and parsing the result gives
    a mapping in which [parent] holds the value itself, not a list. *)
Lemma kvlm_roundtrip_single_list :
  exists raw,
    Wyag.kvlm_serialize kvlm_single = Ok raw /\
    Wyag.kvlm_parse 10 raw 0 [] = Some (Ok kvlm_single_parsed) /\
    kvlm_single_parsed <> kvlm_single.
Proof.
  eexists. split; [reflexivity|]. split; [vm_compute; reflexivity|].
  intros E. inversion E.
Qed.

Section KvlmRoundTrip.

Lemma kvlm_item_lines (ret : bytes) (kv : bytes * Wyag.value) :
  Wyag.kvlm_item ret kv = ret ++ ser_lines (lines_of [kv]).
Proof.
  destruct kv as [k val]. unfold Wyag.kvlm_item, lines_of. simpl.
  destruct (decide (k = [])); [by rewrite app_nil_r|].
  rewrite app_nil_r. fold (values_of val).
  generalize (values_of val). intros vals. revert ret.
  induction vals as [|v vals IH]; intros ret; simpl; [by rewrite app_nil_r|].
  rewrite IH. unfold ser_lines, kvlm_line. simpl. by rewrite <- !app_assoc.
Qed.

Lemma kvlm_items_lines (kvlm : Wyag.dict) (ret : bytes) :
  fold_left Wyag.kvlm_item kvlm ret = ret ++ ser_lines (lines_of kvlm).
Proof.
  revert ret. induction kvlm as [|kv kvlm IH]; intros ret; simpl.
  - by rewrite app_nil_r.
  - rewrite IH, kvlm_item_lines. unfold ser_lines, lines_of. simpl.
    rewrite app_nil_r, flat_map_app. by rewrite <- app_assoc.
Qed.

Lemma length_folded (v : bytes) :
  (length v <= length (replace_byte NL [NL; SP] v))%nat.
Proof.
  induction v as [|x v IH]; simpl; [lia|].
  destruct (decide (x = NL)); simpl; lia.
Qed.

Lemma unfold_folded (v : bytes) :
  replace_pair NL SP [NL] (replace_byte NL [NL; SP] v) = v.
Proof.
  induction v as [|x v IH]; [done|]. simpl replace_byte.
  destruct (decide (x = NL)) as [->|Hx].
  - simpl. by rewrite IH.
  - cbn [replace_pair]. destruct (replace_byte NL [NL; SP] v) as [|d b''] eqn:E.
    + destruct v as [|y v]; [done|]. simpl in E. by destruct (decide (y = NL)).
    + rewrite decide_False by (by intros [? _]). by rewrite IH.
Qed.

Lemma replace_byte_hit (old : byte) (new v : bytes) :
  replace_byte old new (old :: v) = new ++ replace_byte old new v.
Proof. simpl. by rewrite decide_True. Qed.

Lemma replace_byte_miss (old x : byte) (new v : bytes) :
  x <> old -> replace_byte old new (x :: v) = x :: replace_byte old new v.
Proof. intros. simpl. by rewrite decide_False. Qed.

Lemma value_end_folded (v a rest raw : bytes) (c : byte) (e fuel : nat) :
  raw = a ++ replace_byte NL [NL; SP] v ++ NL :: c :: rest ->
  c <> SP -> (S e <= length a)%nat -> NL ∉ drop (S e) a ->
  (length v < fuel)%nat ->
  Wyag.value_end fuel raw (Z.of_nat e)
  = Some (Ok (Z.of_nat (length a + length (replace_byte NL [NL; SP] v)))).
Proof.
  intros Hraw Hc. revert a e fuel Hraw.
  induction v as [|x v IH]; intros a e fuel Hraw He Ha Hf.
  - destruct fuel as [|fuel]; [simpl in Hf; lia|]. simpl in *.
    rewrite (find_first_eq raw NL a (c :: rest) (S e)); [|done|lia|done|done].
    rewrite (item_at_eq raw (a ++ [NL]) c rest).
    + rewrite decide_False by done. do 3 f_equal. lia.
    + by rewrite Hraw, <- app_assoc.
    + rewrite length_app. simpl. lia.
  - destruct (decide (x = NL)) as [->|Hx].
    + rewrite replace_byte_hit in *.
      destruct fuel as [|fuel]; [simpl in Hf; lia|].
      cbn [Wyag.value_end].
      rewrite (find_first_eq raw NL a (SP :: replace_byte NL [NL; SP] v ++ NL :: c :: rest) (S e));
        [|by rewrite Hraw, <- app_assoc|lia|done|done].
      rewrite (item_at_eq raw (a ++ [NL]) SP (replace_byte NL [NL; SP] v ++ NL :: c :: rest)).
      * rewrite decide_True by done.
        rewrite (IH (a ++ [NL; SP]) (length a) fuel).
        -- do 3 f_equal. rewrite !length_app. simpl. lia.
        -- by rewrite Hraw, <- !app_assoc.
        -- rewrite !length_app. simpl. lia.
        -- rewrite drop_app_ge by lia.
           replace (S (length a) - length a)%nat with 1%nat by lia.
           change (drop 1 [NL; SP]) with [SP].
           intros [E|E]%elem_of_cons; [done|by apply elem_of_nil in E].
        -- simpl in Hf. lia.
      * by rewrite Hraw, <- !app_assoc.
      * rewrite length_app. simpl. lia.
    + rewrite replace_byte_miss in * by done.
      rewrite (IH (a ++ [x]) e fuel).
      * do 3 f_equal. rewrite !length_app. simpl. lia.
      * by rewrite Hraw, <- !app_assoc.
      * rewrite length_app. simpl. lia.
      * rewrite drop_app_le by lia. rewrite not_elem_of_app. split; [done|].
        intros [E|E]%elem_of_cons; [done|by apply elem_of_nil in E].
      * simpl in Hf. lia.
Qed.

Lemma index_of_some (b : byte) (l : bytes) : b ∈ l -> is_Some (index_of b l).
Proof.
  induction l as [|c l IH]; [by intros ?%elem_of_nil|].
  intros [->|Hb]%elem_of_cons; simpl.
  - by rewrite decide_True.
  - destruct (decide (c = b)); [done|]. destruct (IH Hb) as [i ->]. done.
Qed.

(** What follows a header line begins with a byte that is not a space: the
    first byte of the next key, or the newline of the empty line. *)
Lemma after_line (ls : list (bytes * bytes)) (msg : bytes) :
  Forall (fun kv => wf_key kv.1) ls ->
  exists c rest, ser_lines ls ++ NL :: msg = c :: rest /\ c <> SP.
Proof.
  intros Hls. destruct ls as [|[k v] ls].
  - by exists NL, msg.
  - apply Forall_cons in Hls as [(Hne & Hsp & _) _]. simpl in *.
    destruct k as [|c k]; [done|]. eexists c, _. split; [reflexivity|].
    intros ->. apply Hsp. by left.
Qed.

Lemma ser_lines_cons (k v : bytes) (ls : list (bytes * bytes)) (r : bytes) :
  ser_lines ((k, v) :: ls) ++ r
  = k ++ [SP] ++ replace_byte NL [NL; SP] v ++ NL :: (ser_lines ls ++ r).
Proof.
  unfold ser_lines. cbn [flat_map]. unfold kvlm_line at 1. cbn [fst snd].
  rewrite <- !app_assoc. reflexivity.
Qed.

Lemma kvlm_parse_lines (ls : list (bytes * bytes)) (pre msg raw : bytes)
    (dct : Wyag.dict) (depth : nat) :
  raw = pre ++ ser_lines ls ++ NL :: msg ->
  Forall (fun kv => wf_key kv.1) ls ->
  (length ls < depth)%nat ->
  Wyag.kvlm_parse depth raw (Z.of_nat (length pre)) dct
  = Some (Ok (Wyag.dict_set (fold_left add_line ls dct) [] (Wyag.VBytes msg))).
Proof.
  revert pre dct depth.
  induction ls as [|[k v] ls IH]; intros pre dct depth Hraw Hls Hd;
    (destruct depth as [|depth]; [simpl in Hd; lia|]).
  - simpl in Hraw. subst raw. cbn [Wyag.kvlm_parse fold_left].
    rewrite !find_at. simpl index_of.
    cbv iota. rewrite Nat.add_0_r.
    replace (_ || _) with true.
    + rewrite Z.eqb_refl. cbn [assert bind].
      rewrite (cons_middle NL), app_assoc.
      replace (Z.of_nat (length pre) + 1) with (Z.of_nat (length (pre ++ [NL])))
        by (rewrite length_app; simpl; lia).
      by rewrite slice_from_at.
    + symmetry. apply orb_true_iff.
      destruct (index_of SP msg) as [i|]; simpl; [right|left]; [apply Z.ltb_lt|]; lia.
  - apply Forall_cons in Hls as [(Hne & Hsp & Hnl) Hls]. simpl in Hne, Hsp, Hnl.
    destruct (after_line ls msg Hls) as (c & rest & Hrest & Hc).
    set (fv := replace_byte NL [NL; SP] v).
    assert (raw = (pre ++ k ++ [SP]) ++ fv ++ NL :: c :: rest) as Hraw1.
    { rewrite Hraw, ser_lines_cons, Hrest. unfold fv. by rewrite <- !app_assoc. }
    cbn [Wyag.kvlm_parse].
    assert (find raw SP (Z.of_nat (length pre)) = Z.of_nat (length pre + length k)) as ->.
    { rewrite (find_first_eq raw SP (pre ++ k) (fv ++ NL :: c :: rest) (length pre)).
      - by rewrite length_app.
      - by rewrite Hraw1, <- !app_assoc.
      - done.
      - rewrite length_app. lia.
      - by rewrite drop_app_length. }
    assert (exists j, find raw NL (Z.of_nat (length pre))
                      = Z.of_nat (length pre + length k + S j)) as [j ->].
    { rewrite Hraw1, <- !app_assoc, find_at.
      rewrite index_of_skip by done. simpl index_of.
      destruct (index_of_some NL (fv ++ NL :: c :: rest)) as [j ->].
      { apply elem_of_app. right. by left. }
      exists j. simpl. f_equal. lia. }
    replace (_ || _) with false.
    2:{ symmetry. apply orb_false_iff. split; apply Z.ltb_ge; lia. }
    rewrite (value_end_folded v (pre ++ k ++ [SP]) rest raw c (length pre)).
    2:{ done. } 2:{ done. }
    2:{ rewrite !length_app. simpl. destruct k; [done|]. simpl. lia. }
    2:{ rewrite drop_app_ge by lia.
        replace (S (length pre) - length pre)%nat with 1%nat by lia.
        destruct k as [|c0 k]; [done|]. simpl. rewrite drop_0.
        apply not_elem_of_cons in Hnl as [_ Hnl].
        rewrite not_elem_of_app. split; [done|].
        intros [E|E]%elem_of_cons; [done|by apply elem_of_nil in E]. }
    2:{ pose proof (length_folded v) as Hl. fold fv in Hl.
        rewrite Hraw1, !length_app. lia. }
    fold fv.
    assert (slice raw (Z.of_nat (length pre)) (Z.of_nat (length pre + length k)) = k) as ->.
    { rewrite Hraw1, <- !app_assoc. apply slice_at. }
    assert (slice raw (Z.of_nat (length pre + length k) + 1)
              (Z.of_nat (length (pre ++ k ++ [SP]) + length fv)) = fv) as ->.
    { replace (Z.of_nat (length pre + length k) + 1)
        with (Z.of_nat (length (pre ++ k ++ [SP])))
        by (rewrite !length_app; simpl; lia).
      rewrite Hraw1. apply slice_at. }
    subst fv. rewrite unfold_folded.
    change (fold_left add_line ((k, v) :: ls) dct)
      with (fold_left add_line ls (add_line dct (k, v))).
    rewrite <- (IH (pre ++ kvlm_line (k, v)) (add_line dct (k, v)) depth).
    + unfold add_line. cbn [fst snd]. f_equal.
      unfold kvlm_line. cbn [fst snd]. rewrite !length_app. simpl. lia.
    + rewrite Hraw, ser_lines_cons. unfold kvlm_line. cbn [fst snd].
      by rewrite <- !app_assoc.
    + done.
    + simpl in Hd. lia.
Qed.

Lemma dict_get_notin (d : Wyag.dict) (k : bytes) :
  k ∉ d.*1 -> Wyag.dict_get d k = None.
Proof.
  induction d as [|[k' x] d IH]; [done|]. simpl.
  intros [Hk Hd]%not_elem_of_cons. rewrite decide_False by done. by apply IH.
Qed.

Lemma dict_set_notin (d : Wyag.dict) (k : bytes) (x : Wyag.value) :
  k ∉ d.*1 -> Wyag.dict_set d k x = d ++ [(k, x)].
Proof.
  induction d as [|[k' y] d IH]; [done|]. simpl.
  intros [Hk Hd]%not_elem_of_cons. rewrite decide_False by done. by rewrite IH.
Qed.

Lemma dict_get_last (d : Wyag.dict) (k : bytes) (x : Wyag.value) :
  k ∉ d.*1 -> Wyag.dict_get (d ++ [(k, x)]) k = Some x.
Proof.
  induction d as [|[k' y] d IH]; simpl.
  - intros _. by rewrite decide_True.
  - intros [Hk Hd]%not_elem_of_cons. rewrite decide_False by done. by apply IH.
Qed.

Lemma dict_set_last (d : Wyag.dict) (k : bytes) (x y : Wyag.value) :
  k ∉ d.*1 -> Wyag.dict_set (d ++ [(k, x)]) k y = d ++ [(k, y)].
Proof.
  induction d as [|[k' z] d IH]; simpl.
  - intros _. by rewrite decide_True.
  - intros [Hk Hd]%not_elem_of_cons. rewrite decide_False by done. by rewrite IH.
Qed.

(** The lines of a list value beyond the second are appended to the list. *)
Lemma add_lines_more (d : Wyag.dict) (k : bytes) (l0 l : list bytes) :
  k ∉ d.*1 ->
  fold_left add_line ((fun v => (k, v)) <$> l) (d ++ [(k, Wyag.VList l0)])
  = d ++ [(k, Wyag.VList (l0 ++ l))].
Proof.
  intros Hk. revert l0. induction l as [|v l IH]; intros l0; simpl.
  - by rewrite app_nil_r.
  - unfold add_line at 2. cbn [fst snd]. rewrite dict_get_last by done.
    rewrite dict_set_last by done. rewrite IH. by rewrite <- app_assoc.
Qed.

(** The lines of one field rebuild the field at the end of the
    dictionary. *)
Lemma add_lines_field (d : Wyag.dict) (k : bytes) (val : Wyag.value) :
  k ∉ d.*1 -> wf_value val ->
  fold_left add_line ((fun v => (k, v)) <$> values_of val) d = d ++ [(k, val)].
Proof.
  intros Hk Hval. destruct val as [b|l]; simpl.
  - unfold add_line. cbn [fst snd]. rewrite dict_get_notin by done.
    by apply dict_set_notin.
  - destruct l as [|v1 [|v2 l]]; simpl in Hval; [lia|lia|]. simpl.
    unfold add_line at 3. cbn [fst snd]. rewrite dict_get_notin by done.
    rewrite dict_set_notin by done.
    unfold add_line at 2. cbn [fst snd]. rewrite dict_get_last by done.
    rewrite dict_set_last by done. by rewrite add_lines_more.
Qed.

Lemma add_lines_fields (fields d : Wyag.dict) :
  NoDup (d.*1 ++ fields.*1) ->
  Forall (fun kv => wf_key kv.1 /\ wf_value kv.2) fields ->
  fold_left add_line (lines_of fields) d = d ++ fields.
Proof.
  revert d. induction fields as [|[k val] fields IH]; intros d Hnd Hwf.
  - by rewrite app_nil_r.
  - apply Forall_cons in Hwf as [[(Hne & _) Hval] Hwf]. cbn [fst snd] in *.
    unfold lines_of. cbn [flat_map fst snd]. rewrite decide_False by done.
    rewrite fold_left_app. rewrite add_lines_field; [|..|done].
    + fold (lines_of fields). rewrite IH; [by rewrite <- app_assoc| |done].
      rewrite fmap_app. simpl. by rewrite <- app_assoc.
    + apply NoDup_app in Hnd as (_ & Hnd & _). intros Hk.
      apply (Hnd k Hk). simpl. by left.
Qed.

Lemma lines_of_wf (fields : Wyag.dict) :
  Forall (fun kv => wf_key kv.1 /\ wf_value kv.2) fields ->
  Forall (fun kv => wf_key kv.1) (lines_of fields).
Proof.
  induction fields as [|[k val] fields IH]; intros Hwf; [constructor|].
  apply Forall_cons in Hwf as [[Hk _] Hwf]. cbn [fst snd] in *.
  unfold lines_of. cbn [flat_map fst snd]. apply Forall_app. split; [|by apply IH].
  destruct (decide (k = [])); [constructor|].
  apply Forall_fmap, Forall_true. by intros v.
Qed.

Lemma lines_of_message (fields : Wyag.dict) (msg : bytes) :
  lines_of (fields ++ [([], Wyag.VBytes msg)]) = lines_of fields.
Proof. unfold lines_of. rewrite flat_map_app. simpl. by rewrite app_nil_r. Qed.

End KvlmRoundTrip.

(** C7, amended. A mapping whose header keys are distinct, not empty and
    free of spaces and newlines, whose list values hold two values or more,
    and whose message comes last under the empty key, is serialized with
    success, and parsing the result gives the same mapping back, with the
    keys in the same order, the same value or list of values under each
    key and the same message, provided the interpreter allows one level of
    recursion for each header line and one more. *)
Theorem kvlm_roundtrip (fields : Wyag.dict) (msg : bytes) (depth : nat) :
  wf_fields fields ->
  (length (lines_of fields) < depth)%nat ->
  exists raw,
    Wyag.kvlm_serialize (fields ++ [([], Wyag.VBytes msg)]) = Ok raw /\
    Wyag.kvlm_parse depth raw 0 [] = Some (Ok (fields ++ [([], Wyag.VBytes msg)])).
Proof.
  intros [Hnd Hwf] Hd.
  assert ([] ∉ fields.*1) as Hmsg.
  { intros Hin. apply list_elem_of_fmap in Hin as ([k val] & Hk & Hin).
    rewrite Forall_forall in Hwf. destruct (Hwf _ Hin) as [(Hne & _) _]. done. }
  exists (ser_lines (lines_of fields) ++ NL :: msg). split.
  - unfold Wyag.kvlm_serialize. rewrite dict_get_last by done.
    by rewrite kvlm_items_lines, lines_of_message.
  - rewrite (kvlm_parse_lines (lines_of fields) [] msg _ [] depth);
      [|done|by apply lines_of_wf|done].
    rewrite add_lines_fields by done. simpl.
    by rewrite dict_set_notin.
Qed.

Lemma kvlm_roundtrip_witness :
  exists raw,
    Wyag.kvlm_serialize kvlm_example = Ok raw /\
    Wyag.kvlm_parse 10 raw 0 [] = Some (Ok kvlm_example).
Proof.
  apply (kvlm_roundtrip
    [ (encode "tree", Wyag.VBytes (encode "29ff16c9c14e2652b22f8b78bb08a5a07930c147"));
      (encode "parent", Wyag.VList [encode "p1"; encode "p2"]) ]
    (encode "Initial commit") 10).
  - split.
    + apply (bool_decide_unpack _). vm_compute. exact I.
    + repeat constructor; try done; simpl; try lia;
        apply (bool_decide_unpack _); vm_compute; exact I.
  - vm_compute. lia.
Defined.

(** ** The object directory: what the writers keep *)

Section StoreInvariants.
Context {zlib : Zlib}.

Lemma str_take_drop (k : nat) (s : string) :
  (str_take k s ++ str_drop k s)%string = s.
Proof.
  unfold str_take, str_drop. revert k. induction s as [|c s IH]; intros k.
  - by destruct k.
  - destruct k as [|k].
    + rewrite Nat.sub_0_r, substring_all. reflexivity.
    + change (String c (substring 0 k s +:+ substring k (String.length s - k) s)
              = String c s).
      by rewrite IH.
Qed.

Lemma length_str_drop (k : nat) (s : string) :
  String.length (str_drop k s) = (String.length s - k)%nat.
Proof.
  unfold str_drop. revert k. induction s as [|c s IH]; intros k.
  - by destruct k.
  - destruct k as [|k].
    + by rewrite Nat.sub_0_r, substring_all.
    + apply IH.
Qed.

Lemma stored_insert (objs : objdir) (d n : string) (data : bytes) (d' n' : string) :
  stored (<[d := <[n := data]> (default ∅ (objs !! d))]> objs) d' n'
  = if decide (d' = d /\ n' = n) then Some data else stored objs d' n'.
Proof.
  unfold stored. destruct (decide (d' = d)) as [->|Hd].
  - rewrite lookup_insert_eq. cbn [mbind option_bind].
    destruct (decide (n' = n)) as [->|Hn].
    + rewrite lookup_insert_eq. by rewrite decide_True.
    + rewrite lookup_insert_ne by done. rewrite decide_False by (by intros [_ ?]).
      by destruct (objs !! d).
  - rewrite lookup_insert_ne by done. by rewrite decide_False by (by intros [? _]).
Qed.

Lemma exists_object_stored (r : Pygit.repo) (d n : string) :
  Pygit.exists_object r d n = true <-> is_Some (stored (Pygit.objects r) d n).
Proof.
  unfold Pygit.exists_object, stored.
  destruct (Pygit.objects r !! d) as [dir|]; cbn [mbind option_bind].
  - apply bool_decide_eq_true.
  - split; [done|]. by intros [? ?].
Qed.

End StoreInvariants.

(** X1. [hash_object] never changes and never removes a file of the object
    directory: a file found there before the call is found there, with the
    same content, after it, whatever is hashed and whether or not the call
    writes. *)
Theorem hash_object_keeps_files {zlib : Zlib} (data : bytes) (t : string)
    (write : bool) (r : Pygit.repo) (d n : string) (c : bytes) :
  stored (Pygit.objects r) d n = Some c ->
  stored (Pygit.objects (Pygit.hash_object data t write r).2) d n = Some c.
Proof.
  intros Hc. unfold Pygit.hash_object. cbv zeta.
  set (sha := SHA1.hexdigest _).
  destruct write; [|done].
  destruct (Pygit.exists_object r _ _) eqn:E; [done|].
  cbn [snd Pygit.write_file Pygit.objects]. rewrite stored_insert.
  destruct (decide _) as [[-> ->]|_]; [|done].
  assert (Pygit.exists_object r (str_take 2 sha) (str_drop 2 sha) = true) as E'
    by (apply exists_object_stored; by eexists).
  congruence.
Qed.

Lemma hash_object_keeps_files_witness :
  stored (Pygit.objects
            (Pygit.hash_object hello "blob" true
               (Pygit.Repo {["ab" := {["cd" := encode "kept"]}]} [])).2)
         "ab" "cd"
  = Some (encode "kept").
Proof.
  apply (hash_object_keeps_files hello "blob" true
           (Pygit.Repo {["ab" := {["cd" := encode "kept"]}]} []) "ab" "cd").
  vm_compute. reflexivity.
Defined.

(** X2. Both writers keep the object directory content-addressed: when every
    file sits at the address of its own content before [hash_object] or
    [object_write] is called, every file does after the call. *)
Theorem writers_keep_content_addressed {zlib : Zlib} (data : bytes) (t : string)
    (write : bool) (r : Pygit.repo) (obj : Wyag.GitObject) (w w' : Wyag.repo)
    (sha : string) :
  (content_addressed (Pygit.objects r) ->
   content_addressed (Pygit.objects (Pygit.hash_object data t write r).2)) /\
  (content_addressed (Wyag.objects w) ->
   Wyag.object_write obj write w = Ok (sha, w') ->
   content_addressed (Wyag.objects w')).
Proof.
  split.
  - intros Hinv. unfold Pygit.hash_object. cbv zeta.
    set (full := encode _ ++ _). set (h := SHA1.hexdigest full).
    destruct write; [|done].
    destruct (Pygit.exists_object r _ _) eqn:E; [done|].
    cbn [snd Pygit.write_file Pygit.objects].
    intros d n c. rewrite stored_insert.
    destruct (decide _) as [[-> ->]|_]; [|apply Hinv].
    intros [= <-]. exists full. rewrite decompress_compress.
    split; [done|]. by rewrite str_take_drop.
  - intros Hinv. unfold Wyag.object_write.
    destruct (Wyag.serialize obj) as [b|]; cbn [bind]; [|done].
    set (full := Wyag.fmt obj ++ _). set (h := SHA1.hexdigest full).
    destruct write; intros [= <- <-]; [|done].
    cbn [Wyag.write_object_file Wyag.objects].
    intros d n c. rewrite stored_insert.
    destruct (decide _) as [[-> ->]|_]; [|apply Hinv].
    intros [= <-]. exists full. rewrite decompress_compress.
    split; [done|]. by rewrite str_take_drop.
Qed.

Lemma writers_keep_content_addressed_witness :
  content_addressed
    (Pygit.objects (Pygit.hash_object hello "blob" true (Pygit.Repo ∅ [])).2) /\
  content_addressed
    (Wyag.objects
       (Wyag.write_object_file (Wyag.Repo ∅ []) "b6"
          "fc4c620b67d95f953a5c1c1230aaab5db5a1b0"
          (compress (encode "blob 5" ++ [NUL] ++ hello)))).
Proof.
  assert (content_addressed (∅ : objdir)) as H0.
  { intros d n c Hc. unfold stored in Hc. by rewrite lookup_empty in Hc. }
  split.
  - apply (proj1 (writers_keep_content_addressed hello "blob" true (Pygit.Repo ∅ [])
                    (Wyag.GitBlob hello) (Wyag.Repo ∅ []) (Wyag.Repo ∅ []) "")).
    exact H0.
  - eapply (proj2 (writers_keep_content_addressed hello "blob" true (Pygit.Repo ∅ [])
                    (Wyag.GitBlob hello) (Wyag.Repo ∅ []) _ _)).
    + exact H0.
    + reflexivity.
Defined.

(** ** libwyag: reading back what was written *)

Section WyagRead.
Context {zlib : Zlib}.

Lemma is_ascii_header (s : string) :
  all_chars header_char s = true -> forallb is_ascii (encode s) = true.
Proof.
  induction s as [|c s IH]; [done|].
  intros [Hc Hs]%andb_true_iff.
  change (encode (String c s)) with (byte_of_ascii c :: encode s).
  cbn [forallb]. rewrite IH by done. rewrite andb_true_r.
  unfold is_ascii. rewrite to_N_byte_of_ascii.
  unfold header_char in Hc. by apply andb_true_iff in Hc as [_ ?].
Qed.

Lemma py_int_spaced (n : nat) :
  py_int (" " ++ str_of_nat n) = Ok (Z.of_nat n).
Proof.
  rewrite <- (py_int_str_of_nat n). unfold py_int.
  change (lstrip (" " +:+ str_of_nat n)) with (lstrip (str_of_nat n)). done.
Qed.

Lemma digits_no_byte (n : nat) (b : byte) :
  (Byte.to_N b < 48)%N -> b ∉ encode (str_of_nat n).
Proof.
  intros Hb. destruct (str_of_nat_digits n) as [Hd _].
  revert Hd. generalize (str_of_nat n). intros s.
  induction s as [|c s IH]; [intros _ ?%elem_of_nil; done|].
  intros [Hc Hs]%andb_true_iff.
  change (encode (String c s)) with (byte_of_ascii c :: encode s).
  intros [->|Hin]%elem_of_cons; [|by apply IH].
  rewrite to_N_byte_of_ascii in Hb. unfold is_digit in Hc.
  apply andb_true_iff in Hc as [Hc _]. apply Z.leb_le in Hc. lia.
Qed.

(** The header that [object_write] puts before the payload is read by
    [object_read] as the tag, the size and the payload. *)
Lemma object_read_stored (depth : nat) (objs : objdir) (sha : string)
    (f data content : bytes) :
  String.length sha = 40%nat ->
  stored objs (str_take 2 sha) (str_drop 2 sha) = Some content ->
  decompress content
    = Some (f ++ [SP] ++ encode (str_of_nat (length data)) ++ [NUL] ++ data) ->
  SP ∉ f ->
  f ∈ known_tags ->
  Wyag.object_read depth objs sha = deserialize depth f data.
Proof.
  intros Hlen Hst Hraw Hsp Hf. unfold Wyag.object_read.
  rewrite decide_False by (intros ->; done).
  unfold stored in Hst.
  destruct (objs !! str_take 2 sha) as [dir|]; [|done]. cbn in Hst.
  rewrite decide_False.
  2:{ intros E. pose proof (length_str_drop 2 sha) as Hl. rewrite E, Hlen in Hl. done. }
  rewrite Hst, Hraw. cbv zeta.
  set (digits := encode (str_of_nat (length data))).
  set (raw := f ++ [SP] ++ digits ++ [NUL] ++ data).
  assert (find raw SP 0 = Z.of_nat (length f)) as ->.
  { apply (find_first_eq raw SP f (digits ++ [NUL] ++ data) 0); try done. lia. }
  assert (find raw NUL (Z.of_nat (length f))
          = Z.of_nat (length (f ++ [SP] ++ digits))) as ->.
  { apply (find_first_eq raw NUL (f ++ [SP] ++ digits) data (length f)).
    - unfold raw. by rewrite <- !app_assoc.
    - done.
    - rewrite length_app. lia.
    - rewrite drop_app_length. apply not_elem_of_app. split.
      + by intros [E|E%elem_of_nil]%elem_of_cons.
      + by apply digits_no_byte. }
  rewrite (slice_eq raw [] f ([SP] ++ digits ++ [NUL] ++ data) 0 (Z.of_nat (length f)));
    [|reflexivity..].
  rewrite (slice_eq raw f ([SP] ++ digits) ([NUL] ++ data)
             (Z.of_nat (length f)) (Z.of_nat (length (f ++ [SP] ++ digits))));
    [|by unfold raw; rewrite <- !app_assoc|done|by rewrite !length_app].
  assert (decode_ascii ([SP] ++ digits) = Ok (" " ++ str_of_nat (length data))%string) as ->.
  { change ([SP] ++ digits) with (encode (" " ++ str_of_nat (length data))).
    unfold decode_ascii. rewrite is_ascii_header.
    - unfold encode. by rewrite string_of_list_byte_of_string.
    - change (" " +:+ str_of_nat (length data))
        with (String " " (str_of_nat (length data))).
      cbn [all_chars]. change (header_char " ") with true. cbn [andb].
      destruct (str_of_nat_digits (length data)) as [Hd _].
      eapply all_chars_impl; [|exact Hd].
      intros c Hc. by destruct (digit_not_special c Hc) as (_ & _ & _ & ->). }
  cbn [bind]. rewrite py_int_spaced.
  replace (Z.of_nat (length data) =? _) with true.
  2:{ symmetry. apply Z.eqb_eq. unfold raw. rewrite !length_app. simpl. lia. }
  cbn [negb].
  assert (slice_from raw (Z.of_nat (length (f ++ [SP] ++ digits)) + 1) = data) as ->.
  { replace (Z.of_nat (length (f ++ [SP] ++ digits)) + 1)
      with (Z.of_nat (length (f ++ [SP] ++ digits ++ [NUL])))
      by (rewrite !length_app; simpl; lia).
    unfold raw.
    replace (f ++ [SP] ++ digits ++ [NUL] ++ data)
      with ((f ++ [SP] ++ digits ++ [NUL]) ++ data) by (by rewrite <- !app_assoc).
    apply slice_from_at. }
  unfold deserialize.
  repeat (destruct (decide (f = _)); [done|]).
  exfalso. unfold known_tags in Hf.
  repeat (apply elem_of_cons in Hf as [?|Hf]; [done|]).
  by apply elem_of_nil in Hf.
Qed.




End WyagRead.



(** ** The two implementations on one object directory *)

Section Interop.
Context {zlib : Zlib}.

Lemma full_data_header (t : string) (data : bytes) :
  full_data t data
  = encode t ++ [SP] ++ encode (str_of_nat (length data)) ++ [NUL] ++ data.
Proof. unfold full_data. rewrite !encode_app. by rewrite <- !app_assoc. Qed.

Lemma hash_object_stores (data : bytes) (t : string) (r : Pygit.repo) :
  let sha := (Pygit.hash_object data t true r).1 in
  (forall content,
     stored (Pygit.objects r) (str_take 2 sha) (str_drop 2 sha) = Some content ->
     content = compress (full_data t data)) ->
  sha = SHA1.hexdigest (full_data t data) /\
  stored (Pygit.objects (Pygit.hash_object data t true r).2)
         (str_take 2 sha) (str_drop 2 sha)
  = Some (compress (full_data t data)).
Proof.
  unfold Pygit.hash_object. cbv zeta. fold (full_data t data). cbn [fst].
  set (sha := SHA1.hexdigest (full_data t data)).
  destruct (Pygit.exists_object r _ _) eqn:E; cbn [fst snd]; intros Hsame;
    (split; [done|]).
  - apply exists_object_stored in E as [c Hc]. by rewrite Hc, (Hsame c Hc).
  - cbn [Pygit.write_file Pygit.objects]. rewrite stored_insert.
    by rewrite decide_True.
Qed.

End Interop.

(** X4. A blob written by pygit's [hash_object] is read by libwyag's
    [object_read] as the same blob, when the address was free or already
    held this blob. *)
Theorem object_read_after_hash_object {zlib : Zlib} (depth : nat) (data : bytes)
    (r : Pygit.repo) :
  let sha := (Pygit.hash_object data "blob" true r).1 in
  (forall content,
     stored (Pygit.objects r) (str_take 2 sha) (str_drop 2 sha) = Some content ->
     content = compress (full_data "blob" data)) ->
  Wyag.object_read depth (Pygit.objects (Pygit.hash_object data "blob" true r).2) sha
  = Some (Ok (Wyag.GitBlob data)).
Proof.
  intros sha Hsame. destruct (hash_object_stores data "blob" r Hsame) as [Hsha Hst].
  fold sha in Hsha, Hst.
  rewrite (object_read_stored depth _ sha (encode "blob") data
             (compress (full_data "blob" data))).
  - done.
  - rewrite Hsha. apply hexdigest_length.
  - exact Hst.
  - rewrite decompress_compress. by rewrite full_data_header.
  - apply (bool_decide_unpack _). by vm_compute.
  - apply (bool_decide_unpack _). by vm_compute.
Qed.

Lemma object_read_after_hash_object_witness :
  Wyag.object_read 10
    (Pygit.objects (Pygit.hash_object hello "blob" true (Pygit.Repo ∅ [])).2)
    (Pygit.hash_object hello "blob" true (Pygit.Repo ∅ [])).1
  = Some (Ok (Wyag.GitBlob hello)).
Proof.
  apply (object_read_after_hash_object 10 hello (Pygit.Repo ∅ [])).
  intros content Hc. unfold stored in Hc. cbn [Pygit.objects] in Hc.
  by rewrite lookup_empty in Hc.
Defined.

(** X5. An object written by libwyag's [object_write] has the digest that
    pygit's [hash_object] computes for its type and serialized payload, and
    pygit's [read_object] reads it back as that type and payload, when no
    other file name of the directory starts with the 38 characters of the
    address. *)
Theorem read_object_after_object_write {zlib : Zlib} (obj : Wyag.GitObject)
    (t : string) (data : bytes) (w w' : Wyag.repo) (sha : string) (r : Pygit.repo) :
  t ∈ ["blob"; "tree"; "commit"; "tag"]%string ->
  Wyag.fmt obj = encode t ->
  Wyag.serialize obj = Ok data ->
  Wyag.object_write obj true w = Ok (sha, w') ->
  (forall dir name,
     Wyag.objects w !! str_take 2 sha = Some dir ->
     is_Some (dir !! name) ->
     String.prefix (str_drop 2 sha) name = true -> name = str_drop 2 sha) ->
  sha = (Pygit.hash_object data t false r).1 /\
  Pygit.read_object (Wyag.objects w') sha = Ok (t, data).
Proof.
  intros Ht Hfmt Hser. unfold Wyag.object_write. rewrite Hser, Hfmt. cbn [bind].
  rewrite <- full_data_header. intros [= <- <-] Honly.
  split; [reflexivity|].
  cbn [Wyag.write_object_file Wyag.objects].
  set (sha := SHA1.hexdigest (full_data t data)) in *.
  apply (read_object_stored _ _ _
           (<[str_drop 2 sha := compress (full_data t data)]>
              (default ∅ (Wyag.objects w !! str_take 2 sha)))).
  - repeat (apply elem_of_cons in Ht as [->|Ht]; [reflexivity|]).
    by apply elem_of_nil in Ht.
  - by rewrite lookup_insert_eq.
  - by rewrite lookup_insert_eq.
  - apply matching_only; [by rewrite lookup_insert_eq|].
    intros name [c Hc] Hp.
    destruct (decide (name = str_drop 2 sha)) as [|Hne]; [done|].
    rewrite lookup_insert_ne in Hc by done.
    destruct (Wyag.objects w !! str_take 2 sha) as [dir|] eqn:Hdir; [|done].
    apply (Honly dir); [done|by eexists|done].
Qed.

Lemma read_object_after_object_write_witness :
  match Wyag.object_write (Wyag.GitBlob hello) true (Wyag.Repo ∅ []) with
  | Ok (sha, w') =>
      sha = (Pygit.hash_object hello "blob" false (Pygit.Repo ∅ [])).1 /\
      Pygit.read_object (Wyag.objects w') sha = Ok ("blob"%string, hello)
  | Raise _ => False
  end.
Proof.
  assert ("blob" ∈ ["blob"; "tree"; "commit"; "tag"])%string as Ht by (by left).
  assert (forall sha dir name,
            (∅ : objdir) !! str_take 2 sha = Some dir ->
            is_Some (dir !! name) ->
            String.prefix (str_drop 2 sha) name = true -> name = str_drop 2 sha)
    as Honly by (intros sha dir name Hdir; by rewrite lookup_empty in Hdir).
  pose proof (fun w' sha =>
    read_object_after_object_write (Wyag.GitBlob hello) "blob" hello
      (Wyag.Repo ∅ []) w' sha (Pygit.Repo ∅ []) Ht eq_refl eq_refl) as T.
  destruct (Wyag.object_write (Wyag.GitBlob hello) true (Wyag.Repo ∅ []))
    as [[sha w']|e] eqn:E.
  - exact (T w' sha eq_refl (Honly sha)).
  - vm_compute in E. discriminate E.
Defined.

(** ** What the parsers return *)

Section Parsed.

Lemma dict_get_set (d : Wyag.dict) (k : bytes) (v : Wyag.value) :
  Wyag.dict_get (Wyag.dict_set d k v) k = Some v.
Proof.
  induction d as [|[k' v'] d IH]; simpl.
  - by rewrite decide_True.
  - destruct (decide (k' = k)) as [->|Hk]; simpl.
    + by rewrite decide_True.
    + by rewrite decide_False.
Qed.

Lemma kvlm_parse_message (depth : nat) (raw : bytes) (start : Z)
    (dct d : Wyag.dict) :
  Wyag.kvlm_parse depth raw start dct = Some (Ok d) ->
  exists m, Wyag.dict_get d [] = Some (Wyag.VBytes m).
Proof.
  revert start dct. induction depth as [|depth IH]; intros start dct; [done|].
  cbn [Wyag.kvlm_parse].
  destruct (_ || _).
  - destruct (assert _ _); cbn [bind]; [|done].
    intros [= <-]. eexists. apply dict_get_set.
  - destruct (Wyag.value_end _ _ _) as [[e|]|]; [|done..].
    apply IH.
Qed.

End Parsed.

(** X6. A mapping returned by [kvlm_parse] always holds its message, as
    bytes, under the empty key; hence [kvlm_serialize] accepts whatever
    [kvlm_parse] returns and raises neither [KeyError] nor [TypeError]. *)
Theorem kvlm_parse_serializable (depth : nat) (raw : bytes) (start : Z)
    (dct d : Wyag.dict) :
  Wyag.kvlm_parse depth raw start dct = Some (Ok d) ->
  exists m out,
    Wyag.dict_get d [] = Some (Wyag.VBytes m) /\
    Wyag.kvlm_serialize d = Ok out.
Proof.
  intros Hp. destruct (kvlm_parse_message _ _ _ _ _ Hp) as [m Hm].
  exists m. unfold Wyag.kvlm_serialize. rewrite Hm. by eexists.
Qed.

Lemma kvlm_parse_serializable_witness :
  exists m out,
    Wyag.dict_get kvlm_single_parsed [] = Some (Wyag.VBytes m) /\
    Wyag.kvlm_serialize kvlm_single_parsed = Ok out.
Proof.
  apply (kvlm_parse_serializable 10 (encode "parent p1

msg") 0 []).
  vm_compute. reflexivity.
Defined.

(** ** libwyag: what the tree parser returns *)

Section TreeParsed.

Lemma elem_of_take_drop {A} (x : A) (k a : nat) (l : list A) :
  x ∈ take k (drop a l) <-> exists m, (m < k)%nat /\ l !! (a + m)%nat = Some x.
Proof.
  rewrite elem_of_take. split.
  - intros (m & Hm & Hk). rewrite lookup_drop in Hm. by exists m.
  - intros (m & Hk & Hm). exists m. by rewrite lookup_drop.
Qed.

Lemma index_of_spec (b : byte) (l : bytes) :
  match index_of b l with
  | Some i => l !! i = Some b /\ (b ∉ take i l)
  | None => b ∉ l
  end.
Proof.
  induction l as [|c l IH]; cbn [index_of].
  - apply not_elem_of_nil.
  - destruct (decide (c = b)) as [->|Hc].
    + split; [done|]. apply not_elem_of_nil.
    + destruct (index_of b l) as [i|]; cbn [fmap option_fmap option_map].
      * destruct IH as [H1 H2]. split; [done|]. cbn [take].
        apply not_elem_of_cons. split; [congruence|done].
      * apply not_elem_of_cons. split; [congruence|done].
Qed.

(** [raw.find(b, start)] for [start >= 0]: either nothing is found from
    [start] on, or the result is the first position from [start] on that
    holds [b]. *)
Lemma find_cases (raw : bytes) (b : byte) (start : Z) :
  0 <= start ->
  (find raw b start = -1 /\ (b ∉ drop (Z.to_nat start) raw)) \/
  (exists i, find raw b start = Z.of_nat i /\
     (Z.to_nat start <= i < length raw)%nat /\
     raw !! i = Some b /\
     (b ∉ take (i - Z.to_nat start) (drop (Z.to_nat start) raw))).
Proof.
  intros Hs. unfold find.
  destruct (Z.ltb_spec (Z.of_nat (length raw)) start) as [Hlt|Hge].
  - left. split; [done|]. rewrite drop_ge by lia. apply not_elem_of_nil.
  - assert (clamp (length raw) start = Z.to_nat start) as ->.
    { unfold clamp. destruct (Z.ltb_spec start 0); lia. }
    pose proof (index_of_spec b (drop (Z.to_nat start) raw)) as Hi.
    destruct (index_of b (drop (Z.to_nat start) raw)) as [i|].
    + right. destruct Hi as [H1 H2]. exists (Z.to_nat start + i)%nat.
      rewrite lookup_drop in H1. split; [done|].
      assert (Z.to_nat start + i < length raw)%nat
        by (apply lookup_lt_is_Some; by eexists).
      split; [lia|]. split; [done|].
      by replace (Z.to_nat start + i - Z.to_nat start)%nat with i by lia.
    + by left.
Qed.

Lemma find_none (raw : bytes) (b : byte) (start : Z) :
  b ∉ raw -> find raw b start = -1.
Proof.
  intros Hb. unfold find. destruct (_ <? _); [done|].
  pose proof (index_of_spec b (drop (clamp (length raw) start) raw)) as Hi.
  destruct (index_of _ _) as [i|]; [|done].
  destruct Hi as [Hi _]. rewrite lookup_drop in Hi.
  destruct Hb. by eapply list_elem_of_lookup_2.
Qed.

Lemma int_from_bytes_bound (l : bytes) :
  0 <= int_from_bytes l < 256 ^ Z.of_nat (length l).
Proof.
  unfold int_from_bytes.
  assert (forall acc k, 0 <= acc < 256 ^ Z.of_nat k ->
            0 <= fold_left (fun a c => a * 256 + Z.of_N (Byte.to_N c)) l acc
              < 256 ^ Z.of_nat (k + length l)) as H.
  { induction l as [|c l IH]; intros acc k Hacc; cbn [fold_left length].
    - by rewrite Nat.add_0_r.
    - replace (k + S (length l))%nat with (S k + length l)%nat by lia.
      apply IH. pose proof (Byte.to_N_bounded c).
      rewrite Nat2Z.inj_succ, Z.pow_succ_r by lia. lia. }
  apply (H 0 0%nat). simpl. lia.
Qed.

Lemma slice_length_le {A} (raw : list A) (a b : Z) :
  0 <= a -> 0 <= b -> (length (slice raw a b) <= Z.to_nat (b - a))%nat.
Proof.
  intros Ha Hb. unfold slice. rewrite length_take. unfold clamp.
  destruct (Z.ltb_spec a 0); [lia|]. destruct (Z.ltb_spec b 0); lia.
Qed.

(** What one call of [tree_parse_one] returns, from a position that is not
    negative: the next position is 20 or more, and the entry can be
    serialized and is rendered as [hex] renders it. *)
Lemma tree_parse_one_wf (raw : bytes) (start pos' : Z) (e : Wyag.GitTreeLeaf) :
  0 <= start ->
  Wyag.tree_parse_one raw start = Ok (pos', e) ->
  20 <= pos' /\ wf_leaf e /\ exists n, 0 <= n /\ Wyag.sha e = hex_of_int n.
Proof.
  intros Hs. unfold Wyag.tree_parse_one.
  destruct (_ || _) eqn:Hx; cbn [assert bind]; [|done].
  intros [= <- <-].
  assert (find raw SP start = start + 5 \/ find raw SP start = start + 6) as Hx'.
  { apply orb_true_iff in Hx as [Hx|Hx]; apply Z.eqb_eq in Hx; lia. }
  clear Hx.
  destruct (find_cases raw SP start Hs) as [[Hn _]|(i & Hi & Hr & Hsp & Hni)];
    [lia|].
  rewrite Hi in *.
  set (y := find raw NUL (Z.of_nat i)).
  set (n := int_from_bytes (slice raw (y + 1) (y + 21))).
  assert (-1 <= y) as Hy.
  { destruct (find_cases raw NUL (Z.of_nat i)) as [[Hn _]|(j & Hj & _)];
      [lia| |]; fold y in Hn || fold y in Hj; lia. }
  assert (0 <= n < 256 ^ 20) as Hn.
  { pose proof (int_from_bytes_bound (slice raw (y + 1) (y + 21))) as Hb.
    fold n in Hb. split; [lia|].
    eapply Z.lt_le_trans; [apply Hb|].
    apply Z.pow_le_mono_r; [lia|].
    pose proof (slice_length_le raw (y + 1) (y + 21)). lia. }
  split; [lia|]. split; [|exists n; split; [lia|done]].
  assert (clamp (length raw) start = Z.to_nat start) as Hcs
    by (unfold clamp; destruct (Z.ltb_spec start 0); lia).
  assert (clamp (length raw) (Z.of_nat i) = i) as Hci
    by (rewrite clamp_nat; lia).
  split; [|split; [|split]]; cbn [Wyag.mode Wyag.path Wyag.sha].
  - unfold slice. rewrite Hcs, Hci, length_take, length_drop. lia.
  - unfold slice. by rewrite Hcs, Hci.
  - unfold slice. intros Hin. apply elem_of_take_drop in Hin as (m & Hm & Hl).
    assert (clamp (length raw) (Z.of_nat i + 1) = S i) as Hc1.
    { replace (Z.of_nat i + 1) with (Z.of_nat (S i)) by lia.
      rewrite clamp_nat. lia. }
    rewrite Hc1 in Hm, Hl.
    destruct (find_cases raw NUL (Z.of_nat i)) as [[Hn' Hno]|(j & Hj & Hjr & _ & Hno)];
      [lia| |]; fold y in Hn' || fold y in Hj; rewrite Nat2Z.id in Hno.
    + apply Hno. apply list_elem_of_lookup. exists (S m).
      rewrite lookup_drop. by replace (i + S m)%nat with (S i + m)%nat by lia.
    + apply Hno. apply elem_of_take_drop. exists (S m).
      replace (i + S m)%nat with (S i + m)%nat by lia. split; [|done].
      rewrite Hj, clamp_nat in Hm. lia.
  - exists n. split; [|done]. apply int_of_hex_of_int. lia.
Qed.

Lemma tree_parse_loop_wf (fuel : nat) (raw : bytes) (pos : Z)
    (ret items : list Wyag.GitTreeLeaf) :
  0 <= pos ->
  Forall (fun e => wf_leaf e /\ exists n, 0 <= n /\ Wyag.sha e = hex_of_int n) ret ->
  Wyag.tree_parse_loop fuel raw pos ret = Some (Ok items) ->
  Forall (fun e => wf_leaf e /\ exists n, 0 <= n /\ Wyag.sha e = hex_of_int n) items.
Proof.
  revert pos ret. induction fuel as [|fuel IH]; intros pos ret Hpos Hret;
    cbn [Wyag.tree_parse_loop]; destruct (_ <=? _); try congruence.
  destruct (Wyag.tree_parse_one raw pos) as [[pos' e]|] eqn:E; [|done].
  destruct (tree_parse_one_wf raw pos pos' e Hpos E) as (Hp & Hwf & Hhex).
  apply IH; [lia|]. apply Forall_app. split; [done|]. apply Forall_singleton. by split.
Qed.

(** A round that ends where it started is repeated for ever. *)
Lemma tree_parse_loop_stuck (fuel : nat) (raw : bytes) (pos : Z)
    (e : Wyag.GitTreeLeaf) (ret : list Wyag.GitTreeLeaf) :
  pos < Z.of_nat (length raw) ->
  Wyag.tree_parse_one raw pos = Ok (pos, e) ->
  Wyag.tree_parse_loop fuel raw pos ret = None.
Proof.
  intros Hlt Hone. revert ret. induction fuel as [|fuel IH]; intros ret;
    cbn [Wyag.tree_parse_loop];
    destruct (Z.leb_spec (Z.of_nat (length raw)) pos); try lia; [done|].
  rewrite Hone. apply IH.
Qed.

End TreeParsed.

(** X7. Whatever [tree_parse] returns can be serialized, and the serialized
    bytes parse to the same entries: every entry returned has a mode of 5 or
    6 bytes without space, a path without NUL byte and a digest that is the
    [hex] text of a value below 2^160. *)
Theorem tree_parse_reserializes (raw : bytes) (items : list Wyag.GitTreeLeaf) :
  Wyag.tree_parse raw = Some (Ok items) ->
  Forall wf_leaf items /\
  exists out,
    Wyag.tree_serialize items = Ok out /\
    Wyag.tree_parse out = Some (Ok items).
Proof.
  intros Hp. unfold Wyag.tree_parse in Hp.
  apply tree_parse_loop_wf in Hp; [|lia|constructor].
  assert (Forall wf_leaf items) as Hwf
    by (eapply Forall_impl; [exact Hp|]; by intros e [? _]).
  split; [done|].
  apply tree_roundtrip_canonical; [done|].
  eapply Forall_impl; [exact Hp|]. by intros e [_ ?].
Qed.

Lemma tree_parse_reserializes_witness :
  Forall wf_leaf [leaf_zero_parsed] /\
  exists out,
    Wyag.tree_serialize [leaf_zero_parsed] = Ok out /\
    Wyag.tree_parse out = Some (Ok [leaf_zero_parsed]).
Proof.
  apply (tree_parse_reserializes
           (encode "100644 a.txt" ++ [NUL; x0a; x4a; x8f; xe5; xcc; xb1; x9b; xa6;
                                      x1c; x4c; x08; x73; xd3; x91; xe9; x87; x98;
                                      x2f; xbb; xd3])).
  vm_compute. reflexivity.
Defined.

(** X8. [tree_parse] does not end on data without NUL byte that holds a mode
    and a space at position 0 and at position 20: [tree_parse_one] then
    returns position 20 each time ([find] gives -1 for the NUL byte), so
    the loop runs again from there whatever the number of rounds, neither
    leaving by its test nor raising. *)
Theorem tree_parse_loops (raw : bytes) (fuel : nat) :
  unterminated raw ->
  Wyag.tree_parse_loop fuel raw 0 [] = None /\ Wyag.tree_parse raw = None.
Proof.
  intros (Hnul & Hlen & H0 & H20).
  assert (forall start, find raw SP start = start + 5 \/ find raw SP start = start + 6 ->
            exists e, Wyag.tree_parse_one raw start = Ok (20, e)) as Hone.
  { intros start Hx. unfold Wyag.tree_parse_one.
    assert ((find raw SP start - start =? 5) || (find raw SP start - start =? 6) = true)
      as -> by (apply orb_true_iff; rewrite !Z.eqb_eq; lia).
    cbn [assert bind]. rewrite (find_none raw NUL) by done. by eexists. }
  assert (forall fuel', Wyag.tree_parse_loop fuel' raw 0 [] = None) as Hall.
  { intros [|fuel']; cbn [Wyag.tree_parse_loop];
      destruct (Z.leb_spec (Z.of_nat (length raw)) 0); try lia; [done|].
    destruct (Hone 0) as [e0 He0]; [lia|]. rewrite He0.
    destruct (Hone 20) as [e He]; [lia|].
    apply (tree_parse_loop_stuck _ _ _ e); [lia|done]. }
  split; [apply Hall|apply Hall].
Qed.

Lemma tree_parse_loops_witness :
  Wyag.tree_parse_loop 1000 unterminated_example 0 [] = None /\
  Wyag.tree_parse unterminated_example = None.
Proof.
  apply (tree_parse_loops unterminated_example 1000).
  unfold unterminated. split; [|split; [|split]].
  - apply (bool_decide_unpack _). vm_compute. exact I.
  - vm_compute. lia.
  - right. vm_compute. reflexivity.
  - right. vm_compute. reflexivity.
Defined.

(** ** pygit: what a successful [read_index] returns *)

Section IndexEntries.

Lemma field_bound (b : bytes) (o f : nat) : 0 <= field b o f < 256 ^ Z.of_nat f.
Proof.
  unfold field. pose proof (int_from_bytes_bound (take f (drop o b))) as H.
  split; [lia|]. eapply Z.lt_le_trans; [apply H|].
  apply Z.pow_le_mono_r; [lia|]. rewrite length_take. lia.
Qed.

Lemma read_entry_ok (entry_data : bytes) (i i' : nat) (e : Pygit.IndexEntry) :
  (i + 62 < length entry_data)%nat ->
  Pygit.read_entry entry_data i = Ok (e, i') -> entry_ok e.
Proof.
  intros Hi. unfold Pygit.read_entry.
  pose proof (index_of_spec x00 (drop (i + 62) entry_data)) as Hk.
  destruct (index_of x00 _) as [k|]; [|done]. destruct Hk as [_ Hk].
  unfold decode.
  destruct (utf8_valid _ _ _ _); cbn [bind]; [|done].
  intros [= <- _]. unfold entry_ok.
  cbn [Pygit.ctime_s Pygit.ctime_n Pygit.mtime_s Pygit.mtime_n Pygit.dev Pygit.ino
       Pygit.mode Pygit.uid Pygit.gid Pygit.size Pygit.sha1 Pygit.flags Pygit.path].
  split; [|split; [|split]].
  - repeat (apply Forall_cons; split; [apply (field_bound _ _ 4)|]).
    apply Forall_nil_2.
  - repeat (rewrite length_take || rewrite length_drop). lia.
  - apply (field_bound _ _ 2).
  - unfold encode. by rewrite list_byte_of_string_of_list_byte.
Qed.

Lemma read_entries_ok (fuel : nat) (entry_data : bytes) (i : nat)
    (acc entries : list Pygit.IndexEntry) :
  Forall entry_ok acc ->
  (64 * length acc <= i)%nat ->
  (64 * length acc <= length entry_data + 1)%nat ->
  Pygit.read_entries fuel entry_data i acc = Some (Ok entries) ->
  Forall entry_ok entries /\ (64 * length entries <= length entry_data + 1)%nat.
Proof.
  revert i acc. induction fuel as [|fuel IH]; intros i acc Hacc Hi Hl;
    cbn [Pygit.read_entries];
    destruct (Nat.ltb_spec (i + 62) (length entry_data)) as [Hlt|Hge];
    cbn [negb].
  - done.
  - by intros [= <-].
  - idtac.
    destruct (Pygit.read_entry entry_data i) as [[e i']|] eqn:E; [|done].
    pose proof (read_entry_advances _ _ _ _ E).
    apply IH.
    + apply Forall_app. split; [done|]. apply Forall_singleton.
      by eapply read_entry_ok.
    + rewrite length_app. simpl. lia.
    + rewrite length_app. simpl. lia.
  - by intros [= <-].
Qed.

End IndexEntries.

(** X9. An index that [read_index] reads with success starts with the
    signature DIRC and the version 2, announces as many entries as are
    returned, and holds at least 64 bytes for each of them; every entry
    returned has ten fields of 32 bits, a digest of exactly 20 bytes, flags
    of 16 bits and a path without NUL byte. *)
Theorem read_index_entries (data : bytes) (entries : list Pygit.IndexEntry) :
  Pygit.read_index (Some data) = Ok entries ->
  take 4 data = encode "DIRC" /\
  field data 4 4 = 2 /\
  field data 8 4 = Z.of_nat (length entries) /\
  (64 * length entries <= length data)%nat /\
  Forall entry_ok entries.
Proof.
  unfold Pygit.read_index.
  destruct (bool_decide (SHA1.digest _ = _)) eqn:Hd; cbn [assert bind]; [|done].
  apply bool_decide_eq_true in Hd.
  destruct (decide (length (take 12 data) = 12%nat)) as [H12|]; cbn [bind]; [|done].
  destruct (bool_decide (take 4 data = _)) eqn:Hsig; cbn [assert bind]; [|done].
  apply bool_decide_eq_true in Hsig.
  destruct (Z.eqb_spec (field data 4 4) 2) as [Hv|]; cbn [assert bind]; [|done].
  set (entry_data := take _ (drop 12 data)).
  destruct (Pygit.read_entries _ entry_data 0 []) as [[es|]|] eqn:Hes;
    cbn [bind]; [|done..].
  destruct (Z.eqb_spec (Z.of_nat (length es)) (field data 8 4)) as [Hn|];
    cbn [assert bind]; [|done].
  intros [= <-].
  apply read_entries_ok in Hes as [Hok Hlen]; [|constructor|simpl; lia..].
  assert (length (drop (length data - 20) data) = 20%nat) as H20
    by (rewrite <- Hd; apply digest_length).
  rewrite length_drop in H20. rewrite length_take in H12.
  assert (length entry_data <= length data - 32)%nat
    by (unfold entry_data; rewrite length_take, length_drop; lia).
  repeat split; try done.
  destruct es as [|e es]; [simpl; lia|].
  assert (32 <= length data)%nat; [|lia].
  destruct (le_lt_dec 32 (length data)); [done|].
  simpl in Hlen. lia.
Qed.

Lemma read_index_entries_witness :
  match Pygit.read_index (Some index_example) with
  | Ok entries =>
      take 4 index_example = encode "DIRC" /\
      field index_example 4 4 = 2 /\
      field index_example 8 4 = Z.of_nat (length entries) /\
      (64 * length entries <= length index_example)%nat /\
      Forall entry_ok entries
  | Raise _ => False
  end.
Proof.
  pose proof (read_index_entries index_example) as T.
  destruct (Pygit.read_index (Some index_example)) as [entries|e] eqn:E.
  - exact (T entries eq_refl).
  - vm_compute in E. discriminate E.
Defined.

(** ** libwyag: what [ref_resolve] returns *)

(** X10. What [ref_resolve] returns is the text of a ref file without its
    last character, is never itself a symbolic reference (it does not start
    with "ref: "), and is the same under any greater recursion limit. *)
Theorem ref_resolve_direct (depth : nat) (files : gmap string string)
    (ref s : string) :
  Wyag.ref_resolve depth files ref = Ok s ->
  String.prefix "ref: " s = false /\
  (exists r text, files !! r = Some text /\ s = str_drop_last text) /\
  forall depth', (depth <= depth')%nat -> Wyag.ref_resolve depth' files ref = Ok s.
Proof.
  revert ref. induction depth as [|depth IH]; intros ref; cbn [Wyag.ref_resolve];
    [done|].
  destruct (files !! ref) as [text|] eqn:Hf; [|done].
  destruct (String.prefix "ref: " (str_drop_last text)) eqn:Hp.
  - intros Hr. destruct (IH _ Hr) as (H1 & H2 & H3).
    split; [done|]. split; [done|].
    intros [|depth'] Hd; [lia|]. cbn [Wyag.ref_resolve]. rewrite Hf, Hp.
    apply H3. lia.
  - intros [= <-]. split; [done|]. split; [by exists ref, text|].
    intros [|depth'] Hd; [lia|]. cbn [Wyag.ref_resolve]. by rewrite Hf, Hp.
Qed.

Lemma ref_resolve_direct_witness :
  String.prefix "ref: " "29ff16c9c14e2652b22f8b78bb08a5a07930c147" = false /\
  (exists r text, refs_head !! r = Some text /\
     "29ff16c9c14e2652b22f8b78bb08a5a07930c147"%string = str_drop_last text) /\
  forall depth', (2 <= depth')%nat ->
    Wyag.ref_resolve depth' refs_head "HEAD"
    = Ok "29ff16c9c14e2652b22f8b78bb08a5a07930c147"%string.
Proof.
  apply (ref_resolve_direct 2 refs_head "HEAD").
  vm_compute. reflexivity.
Defined.

(** ** pygit: reading by an abbreviated digest *)

Section Abbreviated.
Context {zlib : Zlib}.

Lemma str_prefix_trans (a b c : string) :
  String.prefix a b = true -> String.prefix b c = true -> String.prefix a c = true.
Proof.
  revert b c. induction a as [|x a IH]; intros [|y b] [|z c]; simpl; try done.
  destruct (Ascii.ascii_dec x y) as [->|]; [|done].
  destruct (Ascii.ascii_dec y z) as [->|]; [|done].
  apply IH.
Qed.

Lemma str_prefix_take_drop (p s : string) :
  (2 <= String.length p)%nat -> String.prefix p s = true ->
  str_take 2 p = str_take 2 s /\
  String.prefix (str_drop 2 p) (str_drop 2 s) = true.
Proof.
  destruct p as [|a [|b p]]; simpl; try lia. intros _.
  destruct s as [|a' [|b' s]]; simpl; try done.
  - by destruct (Ascii.ascii_dec a a').
  - destruct (Ascii.ascii_dec a a') as [<-|]; [|done].
    destruct (Ascii.ascii_dec b b') as [<-|]; [|done].
    intros Hp. split.
    + unfold str_take. cbn [substring]. by destruct p, s.
    + assert (forall c d t, str_drop 2 (String c (String d t)) = t) as Hd.
      { intros c d t. unfold str_drop. cbn [String.length substring Nat.sub].
        rewrite Nat.sub_0_r. apply substring_all. }
      by rewrite !Hd.
Qed.

(** [read_object] looks at its argument only to find the file. *)
Lemma read_object_same_file (objs : objdir) (p q : string) :
  Pygit.find_object objs p = Pygit.find_object objs q ->
  Pygit.read_object objs p = Pygit.read_object objs q.
Proof. unfold Pygit.read_object. by intros ->. Qed.

End Abbreviated.

(** X11. An abbreviation of two or more characters of a digest reads what
    the full digest reads, with the same result or the same error, when the
    object is stored and it is the only file of its directory whose name
    starts with the rest of the abbreviation. *)
Theorem read_object_abbreviated {zlib : Zlib} (objs : objdir) (p sha : string)
    (dir : gmap string bytes) :
  (2 <= String.length p)%nat ->
  String.prefix p sha = true ->
  objs !! str_take 2 sha = Some dir ->
  is_Some (dir !! str_drop 2 sha) ->
  (forall name, is_Some (dir !! name) ->
     String.prefix (str_drop 2 p) name = true -> name = str_drop 2 sha) ->
  Pygit.find_object objs p = Ok (str_take 2 sha, str_drop 2 sha) /\
  Pygit.read_object objs p = Pygit.read_object objs sha.
Proof.
  intros Hlen Hp Hdir Hfile Honly.
  destruct (str_prefix_take_drop p sha Hlen Hp) as [Ht Hd].
  assert (2 <= String.length sha)%nat as Hlen'.
  { destruct p as [|a [|b p]]; simpl in Hlen; try lia.
    destruct sha as [|a' [|b' s]]; simpl in Hp |- *; [done| |lia].
    by destruct (Ascii.ascii_dec a a'). }
  assert (Pygit.find_object objs p = Ok (str_take 2 sha, str_drop 2 sha)) as Hfp.
  { rewrite <- Ht. apply (find_object_unique objs p dir); [done|by rewrite Ht|].
    apply set_eq. intros x. unfold matching.
    rewrite elem_of_filter, elem_of_dom, elem_of_singleton. split.
    - intros [Hx Hin]. by apply Honly.
    - intros ->. by split. }
  split; [done|].
  apply read_object_same_file. rewrite Hfp. symmetry.
  apply (find_object_unique objs sha dir); [done|done|].
  apply matching_only; [done|].
  intros name Hin Hx. apply Honly; [done|]. by eapply str_prefix_trans.
Qed.

Lemma read_object_abbreviated_witness :
  Pygit.find_object
    (Pygit.objects (Pygit.hash_object hello "blob" true (Pygit.Repo ∅ [])).2) "b6fc"
  = Ok (str_take 2 "b6fc4c620b67d95f953a5c1c1230aaab5db5a1b0",
        str_drop 2 "b6fc4c620b67d95f953a5c1c1230aaab5db5a1b0") /\
  Pygit.read_object
    (Pygit.objects (Pygit.hash_object hello "blob" true (Pygit.Repo ∅ [])).2) "b6fc"
  = Pygit.read_object
      (Pygit.objects (Pygit.hash_object hello "blob" true (Pygit.Repo ∅ [])).2)
      "b6fc4c620b67d95f953a5c1c1230aaab5db5a1b0".
Proof.
  apply (read_object_abbreviated _ "b6fc" "b6fc4c620b67d95f953a5c1c1230aaab5db5a1b0"
           {[ "fc4c620b67d95f953a5c1c1230aaab5db5a1b0"%string
              := compress (full_data "blob" hello) ]}).
  - simpl. lia.
  - reflexivity.
  - vm_compute. reflexivity.
  - rewrite lookup_singleton_eq. by eexists.
  - intros name [c Hc] _. apply lookup_singleton_Some in Hc as [<- _]. reflexivity.
Defined.
